(** * server/prompt.go: prompt rendering and chat-history truncation

    A shallow embedding of [isResponseNode], [formatTemplateForResponse],
    [Prompt], [countTokens] and [ChatPrompt], followed by the properties of
    the specification stated against it.

    Conventions.
    - A Go function returning [(T, error)] returns a pair [T * option error];
      [None] is the nil error.  An [error] is its message.
    - Go's [int] is a 64-bit two's complement integer: [int_add], [int_sub]
      and [int_mul] wrap around.
    - [text/template], [strings.ToLower], the tokenizer [encode] and the
      package variable [loaded] are not part of this file of the program;
      they are the variables of the sections below. *)

From Stdlib Require Import ZArith Lia String Ascii List DecimalString Sorted.
From Stdlib Require Import DecimalPos DecimalZ.
From stdpp Require Import base list strings gmap.
From Equations Require Import Equations.
From Equations.Prop Require Import Logic.

Open Scope Z_scope.

(** ** Go values *)

Definition error := string.

(** A call either returns or stops the goroutine with a run-time panic
    (an index out of range). *)
Inductive outcome (A : Type) : Type :=
| Returns (a : A) (err : option error)
| Panics.
Arguments Returns {A} a err.
Arguments Panics {A}.

Definition min_int : Z := - 2 ^ 63.
Definition max_int : Z := 2 ^ 63 - 1.

Definition wrap (z : Z) : Z := (z + 2 ^ 63) mod 2 ^ 64 - 2 ^ 63.

Definition int_add (a b : Z) : Z := wrap (a + b).
Definition int_sub (a b : Z) : Z := wrap (a - b).
Definition int_mul (a b : Z) : Z := wrap (a * b).

(** [len(s)] of a slice. *)
Definition len {A} (s : list A) : Z := Z.of_nat (length s).

(** [fmt.Sprintf("%d", n)] *)
Definition itoa (n : Z) : string := NilZero.string_of_int (Z.to_int n).

(** ** text/template/parse: the shape of a compiled template

    Only what prompt.go inspects or builds is kept: an action node wraps a
    pipeline of commands, each command a sequence of argument nodes, some of
    which are field nodes with a dotted identifier path.  Every other kind
    of node (if, range, with, template, literals, ...) is [ofOther]. *)
Module parse.

Record FieldNode := { Ident : list string }.
Record TextNode := { Text : string }.

Inductive Node : Type :=
| ofField (n : FieldNode)
| ofAction (n : ActionNode)
| ofText (n : TextNode)
| ofOther (src : string)
with ActionNode : Type := Build_ActionNode (Pipe : PipeNode)
with PipeNode : Type := Build_PipeNode (Cmds : list CommandNode)
with CommandNode : Type := Build_CommandNode (Args : list Node).

Definition Pipe (n : ActionNode) : PipeNode :=
  match n with Build_ActionNode p => p end.
Definition Cmds (n : PipeNode) : list CommandNode :=
  match n with Build_PipeNode c => c end.
Definition Args (n : CommandNode) : list Node :=
  match n with Build_CommandNode a => a end.

End parse.

(** isResponseNode checks if the node contains .Response *)
Definition isResponseArg (arg : parse.Node) : bool :=
  match arg with
  | parse.ofField fieldNode =>
      match parse.Ident fieldNode with
      | ident0 :: _ => String.eqb ident0 "Response"
      | [] => false
      end
  | _ => false
  end.

Definition isResponseNode (node : parse.ActionNode) : bool :=
  existsb (fun cmd => existsb isResponseArg (parse.Args cmd))
          (parse.Cmds (parse.Pipe node)).

(** The node [{{ .Response }}] built by formatTemplateForResponse. *)
Definition responseFieldNode : parse.FieldNode :=
  {| parse.Ident := ["Response"%string] |}.
Definition responsePipeNode : parse.PipeNode :=
  parse.Build_PipeNode [parse.Build_CommandNode [parse.ofField responseFieldNode]].
Definition responseActionNode : parse.ActionNode :=
  parse.Build_ActionNode responsePipeNode.

(** The [range] loop of formatTemplateForResponse over the nodes that are
    left to visit; [i] is the index of the next node, [Nodes] is
    [tmpl.Tree.Root.Nodes] and [found] the flag.  Returns both on exit. *)
Fixpoint formatRange (cut : bool) (rest : list parse.Node) (i : nat)
    (Nodes : list parse.Node) (found : bool) : list parse.Node * bool :=
  match rest with
  | [] => (Nodes, found)
  | node :: rest' =>
      match node with
      | parse.ofAction actionNode =>
          if isResponseNode actionNode then
            if cut then (take (i + 1) Nodes, true)
            else formatRange cut rest' (S i) Nodes true
          else formatRange cut rest' (S i) Nodes found
      | _ => formatRange cut rest' (S i) Nodes found
      end
  end.

(** formatTemplateForResponse formats the template AST to:
    1. remove all nodes after the first .Response (if cut=true)
    2. add a .Response node to the end if it doesn't exist.
    The function is given as its effect on [tmpl.Tree.Root.Nodes]. *)
Definition formatTemplateForResponse (Nodes : list parse.Node) (cut : bool)
    : list parse.Node :=
  let '(Nodes, found) := formatRange cut Nodes 0 Nodes false in
  if negb found then Nodes ++ [parse.ofAction responseActionNode] else Nodes.

(** ** llm and api *)
Module llm.
Record ImageData := { ID : Z; Data : list Byte.byte }.
End llm.

Module api.
Definition ImageData := list Byte.byte.
Record Message := { Role : string; Content : string; Images : list ImageData }.
End api.

(** The local type [prompt] of ChatPrompt. *)
Module prompt.
Record t := mk {
  System : string;
  system : bool;
  Prompt : string;
  prompt : bool;
  Response : string;
  response : bool;
  Images : list llm.ImageData;
  tokens : Z
}.

(** [prompt{}] *)
Definition zero : t := mk "" false "" false "" false [] 0.

Definition set_System (v : string) (p : t) : t :=
  mk v (system p) (Prompt p) (prompt p) (Response p) (response p) (Images p) (tokens p).
Definition set_system (v : bool) (p : t) : t :=
  mk (System p) v (Prompt p) (prompt p) (Response p) (response p) (Images p) (tokens p).
Definition set_Prompt (v : string) (p : t) : t :=
  mk (System p) (system p) v (prompt p) (Response p) (response p) (Images p) (tokens p).
Definition set_prompt (v : bool) (p : t) : t :=
  mk (System p) (system p) (Prompt p) v (Response p) (response p) (Images p) (tokens p).
Definition set_Response (v : string) (p : t) : t :=
  mk (System p) (system p) (Prompt p) (prompt p) v (response p) (Images p) (tokens p).
Definition set_response (v : bool) (p : t) : t :=
  mk (System p) (system p) (Prompt p) (prompt p) (Response p) v (Images p) (tokens p).
Definition set_Images (v : list llm.ImageData) (p : t) : t :=
  mk (System p) (system p) (Prompt p) (prompt p) (Response p) (response p) v (tokens p).
Definition set_tokens (v : Z) (p : t) : t :=
  mk (System p) (system p) (Prompt p) (prompt p) (Response p) (response p) (Images p) v.
End prompt.

(** The compiled templates that are allocated: see [Prompt_heap]. *)
Abbreviation heap := (list (list parse.Node)).

(** ** The program *)
Section Server.

(** [template.New("").Option("missingkey=zero").Parse(tmpl)]: the
    top-level nodes [Tree.Root.Nodes] of the compiled template, or the
    syntax error. *)
Variable Parse : string -> list parse.Node * option error.

(** The executor of text/template: [walk] runs one top-level node against
    the data, in an execution state (the variable stack), and gives the
    text it wrote, the state it leaves and the error it stopped with. *)
Variable state : Type.
Variable newState : state.
Variable walk :
  gmap string string -> state -> parse.Node -> string * state * option error.

(** [strings.ToLower] *)
Variable ToLower : string -> string.

(** The field [loaded.Model.System] of the package variable [loaded] at
    the time of the call. *)
Variable loaded_Model_System : string.

(** A list node is walked node by node; the first error stops it. *)
Fixpoint walkList (vars : gmap string string) (s : state)
    (nodes : list parse.Node) : string * state * option error :=
  match nodes with
  | [] => (""%string, s, None)
  | node :: rest =>
      let '(out, s, err) := walk vars s node in
      match err with
      | Some err => (out, s, Some err)
      | None =>
          let '(out', s, err) := walkList vars s rest in
          (out +:+ out', s, err)
      end
  end.

(** [parsed.Execute(&sb, vars)]: the text written to [sb] and the error. *)
Definition Execute (nodes : list parse.Node) (vars : gmap string string)
    : string * option error :=
  let '(sb, _, err) := walkList vars newState nodes in (sb, err).

Definition Prompt (tmpl system prompt response : string) (cut : bool)
    : string * option error :=
  let '(parsed, err) := Parse tmpl in
  match err with
  | Some err => (""%string, Some err)
  | None =>
      let parsed := formatTemplateForResponse parsed cut in
      let vars : gmap string string :=
        {[ "System"%string := system;
           "Prompt"%string := prompt;
           "Response"%string := response ]} in
      let '(sb, err) := Execute parsed vars in
      match err with
      | Some err => (""%string, Some err)
      | None => (sb, None)
      end
  end.

(** The [slog.Error] call on an encoding failure only logs. *)
Definition countTokens (tmpl system prompt response : string)
    (encode : string -> list Z * option error) : Z * option error :=
  let '(rendered, err) := Prompt tmpl system prompt response false in
  match err with
  | Some err => (0, Some err)
  | None =>
      let '(tokens, err) := encode rendered in
      match err with
      | Some err => (0, Some err)
      | None => (len tokens, None)
      end
  end.

(** *** ChatPrompt: segmentation *)

(** [fmt.Sprintf(" [img-%d]", images)] *)
Definition Sprintf_img (images : Z) : string :=
  " [img-" +:+ itoa images +:+ "]".

(** [for i := range msg.Images] in the user case. *)
Fixpoint rangeImages (Images : list api.ImageData) (p : prompt.t) (images : Z)
    : prompt.t * Z :=
  match Images with
  | [] => (p, images)
  | data :: rest =>
      let p := prompt.set_Prompt (prompt.Prompt p +:+ Sprintf_img images) p in
      let p :=
        prompt.set_Images
          (prompt.Images p ++ [ {| llm.ID := images; llm.Data := data |} ]) p in
      rangeImages rest p (int_add images 1)
  end.

Definition invalidRole (Role : string) : error :=
  "invalid role: " +:+ Role +:+ ", role must be one of [system, user, assistant]".

(** The body of [for _, msg := range messages] on the variables
    [prompts], [p] and [images]; [inr] is the early return. *)
Definition segmentMsg (st : list prompt.t * prompt.t * Z) (msg : api.Message)
    : list prompt.t * prompt.t * Z + error :=
  let '(prompts, p, images) := st in
  let role := ToLower (api.Role msg) in
  if String.eqb role "system" then
    let '(prompts, p) :=
      if prompt.system p || prompt.prompt p || prompt.response p
      then (prompts ++ [p], prompt.zero) else (prompts, p) in
    let p := prompt.set_System (api.Content msg) p in
    let p := prompt.set_system true p in
    inl (prompts, p, images)
  else if String.eqb role "user" then
    let '(prompts, p) :=
      if prompt.prompt p || prompt.response p
      then (prompts ++ [p], prompt.zero) else (prompts, p) in
    let p := prompt.set_Prompt (api.Content msg) p in
    let p := prompt.set_prompt true p in
    let '(p, images) := rangeImages (api.Images msg) p images in
    inl (prompts, p, images)
  else if String.eqb role "assistant" then
    let '(prompts, p) :=
      if prompt.response p
      then (prompts ++ [p], prompt.zero) else (prompts, p) in
    let p := prompt.set_Response (api.Content msg) p in
    let p := prompt.set_response true p in
    inl (prompts, p, images)
  else inr (invalidRole (api.Role msg)).

Fixpoint rangeMessages (messages : list api.Message)
    (st : list prompt.t * prompt.t * Z) : list prompt.t * prompt.t * Z + error :=
  match messages with
  | [] => inl st
  | msg :: rest =>
      match segmentMsg st msg with
      | inl st => rangeMessages rest st
      | inr err => inr err
      end
  end.

(** The first prompt: [p.System = loaded.Model.System; p.system = true]. *)
Definition firstPrompt : prompt.t :=
  prompt.set_system true (prompt.set_System loaded_Model_System prompt.zero).

(** ChatPrompt up to and including "add final prompt". *)
Definition segment (messages : list api.Message) : list prompt.t + error :=
  match rangeMessages messages ([], firstPrompt, 0) with
  | inr err => inr err
  | inl (prompts, p, _) =>
      inl (if prompt.system p || prompt.prompt p || prompt.response p
           then prompts ++ [p] else prompts)
  end.

(** *** ChatPrompt: token lengths *)

(** [for _, p := range prompts]: the loop variable [p] is a copy of the
    element, [p.tokens = ...] assigns to that copy and the slice [prompts]
    is not written.  [range] are the elements left to visit. *)
Fixpoint costRange (tmpl : string) (encode : string -> list Z * option error)
    (range : list prompt.t) (prompts : list prompt.t)
    : list prompt.t * option error :=
  match range with
  | [] => (prompts, None)
  | p :: rest =>
      let '(tokens, err) :=
        countTokens tmpl (prompt.System p) (prompt.Prompt p) (prompt.Response p) encode in
      match err with
      | Some err => (prompts, Some err)
      | None =>
          let p := prompt.set_tokens
                     (int_add tokens (int_mul (len (prompt.Images p)) 768)) p in
          costRange tmpl encode rest prompts
      end
  end.

(** *** ChatPrompt: truncation *)

(** [var total int; for _, p := range prompts { total += p.tokens }] *)
Definition total (prompts : list prompt.t) : Z :=
  fold_left (fun total p => int_add total (prompt.tokens p)) prompts 0.

(** How one pass through the body of the [for] loop ends. *)
Inductive ctl : Type :=
| ctlContinue (prompts : list prompt.t)
| ctlBreak (prompts : list prompt.t)
| ctlReturn (s : string) (err : error)
| ctlPanic.

Definition truncStep (tmpl : string) (window : Z)
    (encode : string -> list Z * option error) (prompts : list prompt.t) : ctl :=
  if total prompts <=? window then ctlBreak prompts else
  match prompts with
  | [] => ctlPanic
  | prompts0 :: rest =>
      if 1 <? len (prompt.Images prompts0) then
        let prompts0 :=
          prompt.set_Images (drop 1 (prompt.Images prompts0)) prompts0 in
        let prompts0 :=
          prompt.set_tokens (int_sub (prompt.tokens prompts0) 768) prompts0 in
        ctlContinue (prompts0 :: rest)
      else if 1 <? len prompts then
        let system := prompt.System prompts0 in
        let prompts := rest in
        if String.eqb system "" then ctlContinue prompts else
        match prompts with
        | [] => ctlPanic
        | prompts0 :: rest =>
            if String.eqb (prompt.System prompts0) "" then
              let prompts0 := prompt.set_System system prompts0 in
              let '(tokens, err) :=
                countTokens tmpl (prompt.System prompts0) (prompt.Prompt prompts0)
                            (prompt.Response prompts0) encode in
              match err with
              | Some err => ctlReturn "" err
              | None =>
                  let prompts0 :=
                    prompt.set_tokens
                      (int_add tokens (int_mul (len (prompt.Images prompts0)) 768))
                      prompts0 in
                  ctlBreak (prompts0 :: rest)
              end
            else ctlBreak prompts
        end
      else ctlBreak prompts
  end.

(** Every [continue] drops an image or a prompt. *)
Definition weight (prompts : list prompt.t) : nat :=
  (length prompts + sum_list (map (fun p => length (prompt.Images p)) prompts))%nat.

(** How the loop ends. *)
Inductive loopExit : Type :=
| Done (prompts : list prompt.t)
| Failed (err : error)
| Crashed.

Equations? truncLoop (tmpl : string) (window : Z)
    (encode : string -> list Z * option error) (prompts : list prompt.t)
    : loopExit by wf (weight prompts) lt :=
  truncLoop tmpl window encode prompts
    with inspect (truncStep tmpl window encode prompts) := {
    | exist _ (ctlContinue prompts') H => truncLoop tmpl window encode prompts'
    | exist _ (ctlBreak prompts') _ => Done prompts'
    | exist _ (ctlReturn _ err) _ => Failed err
    | exist _ ctlPanic _ => Crashed }.
Proof.
  revert H. unfold truncStep, weight.
  destruct (total prompts <=? window); [discriminate|].
  destruct prompts as [|p0 rest]; [discriminate|].
  destruct (1 <? len (prompt.Images p0)) eqn:Himg.
  - intros [= <-]. apply Z.ltb_lt in Himg. unfold len in Himg.
    destruct p0 as [? ? ? ? ? ? [|img imgs] ?]; cbn in *; [lia|].
    rewrite drop_0. lia.
  - destruct (1 <? len (p0 :: rest)); [|discriminate].
    destruct (String.eqb (prompt.System p0) "").
    + intros [= <-]. simpl. lia.
    + destruct rest as [|q rest']; [discriminate|].
      destruct (String.eqb (prompt.System q) ""); [|discriminate].
      destruct (countTokens _ _ _ _ _) as [tokens [err|]]; discriminate.
Defined.

(** *** ChatPrompt: final rendering *)

(** [for _, p := range prompts] writing to [sb]. *)
Fixpoint renderRange (tmpl : string) (range : list prompt.t) (sb : string)
    : string * option error :=
  match range with
  | [] => (sb, None)
  | p :: rest =>
      let '(rendered, err) :=
        Prompt tmpl (prompt.System p) (prompt.Prompt p) (prompt.Response p) true in
      match err with
      | Some err => (""%string, Some err)
      | None => renderRange tmpl rest (sb +:+ rendered)
      end
  end.

(** The prompts that reach the final rendering. *)
Definition survivors (tmpl : string) (messages : list api.Message) (window : Z)
    (encode : string -> list Z * option error) : outcome (list prompt.t) :=
  match segment messages with
  | inr err => Returns [] (Some err)
  | inl prompts =>
      let '(prompts, err) := costRange tmpl encode prompts prompts in
      match err with
      | Some err => Returns [] (Some err)
      | None =>
          match truncLoop tmpl window encode prompts with
          | Done prompts => Returns prompts None
          | Failed err => Returns [] (Some err)
          | Crashed => Panics
          end
      end
  end.

(** ChatPrompt builds up a prompt from a series of messages, truncating
    based on context window size.  The parameter [system] is not used by
    the body. *)
Definition ChatPrompt (tmpl : string) (system : string)
    (messages : list api.Message) (window : Z)
    (encode : string -> list Z * option error) : outcome string :=
  match survivors tmpl messages window encode with
  | Panics => Panics
  | Returns _ (Some err) => Returns ""%string (Some err)
  | Returns prompts None =>
      let '(s, err) := renderRange tmpl prompts "" in Returns s err
  end.

(** *** Prompt with the compiled template on the heap

    The same function with the compiled template where Go keeps it: [Parse]
    allocates a fresh [*template.Template], formatTemplateForResponse
    assigns to its [Tree.Root.Nodes] in place and [Execute] reads it back.
    A heap is the list of the node slices of the templates allocated so
    far, and a template is its position in it. *)

(** [tmpl.Tree.Root.Nodes] *)
Definition Nodes_of (h : heap) (tmpl : nat) : list parse.Node :=
  default [] (h !! tmpl).

Fixpoint formatRange_heap (cut : bool) (rest : list parse.Node) (i : nat)
    (tmpl : nat) (h : heap) (found : bool) : heap * bool :=
  match rest with
  | [] => (h, found)
  | node :: rest' =>
      match node with
      | parse.ofAction actionNode =>
          if isResponseNode actionNode then
            if cut then (<[tmpl := take (i + 1) (Nodes_of h tmpl)]> h, true)
            else formatRange_heap cut rest' (S i) tmpl h true
          else formatRange_heap cut rest' (S i) tmpl h found
      | _ => formatRange_heap cut rest' (S i) tmpl h found
      end
  end.

Definition formatTemplateForResponse_heap (h : heap) (tmpl : nat) (cut : bool)
    : heap :=
  let '(h, found) := formatRange_heap cut (Nodes_of h tmpl) 0 tmpl h false in
  if negb found
  then <[tmpl := Nodes_of h tmpl ++ [parse.ofAction responseActionNode]]> h
  else h.

Definition Prompt_heap (h : heap) (tmpl system prompt response : string)
    (cut : bool) : string * option error * heap :=
  let '(nodes, err) := Parse tmpl in
  match err with
  | Some err => (""%string, Some err, h)
  | None =>
      let parsed := length h in
      let h := h ++ [nodes] in
      let h := formatTemplateForResponse_heap h parsed cut in
      let vars : gmap string string :=
        {[ "System"%string := system;
           "Prompt"%string := prompt;
           "Response"%string := response ]} in
      let '(sb, err) := Execute (Nodes_of h parsed) vars in
      match err with
      | Some err => (""%string, Some err, h)
      | None => (sb, None, h)
      end
  end.

End Server.

(** ** A small instance of the collaborators

    Enough of text/template, of [strings.ToLower] and of a tokenizer to run
    the program on concrete conversations: templates made of text and of
    actions [{{ .Field }}], ASCII role names, one token per byte. *)
Module Toy.

Definition lowerAscii (c : ascii) : ascii :=
  let n := nat_of_ascii c in
  if (65 <=? n)%nat && (n <=? 90)%nat then ascii_of_nat (n + 32) else c.

(** [strings.ToLower] on ASCII text. *)
Fixpoint ToLower (s : string) : string :=
  match s with
  | EmptyString => EmptyString
  | String c s' => String (lowerAscii c) (ToLower s')
  end.

(** Splits [s] around the first occurrence of the two characters [d d]. *)
Fixpoint cutDelim (d : ascii) (s : string) : option (string * string) :=
  match s with
  | EmptyString => None
  | String c s' =>
      match s' with
      | EmptyString => None
      | String c' s'' =>
          if Ascii.eqb c d && Ascii.eqb c' d then Some (EmptyString, s'')
          else match cutDelim d s' with
               | Some (before, after) => Some (String c before, after)
               | None => None
               end
      end
  end.

Definition isLetter (c : ascii) : bool :=
  let n := nat_of_ascii c in
  ((65 <=? n)%nat && (n <=? 90)%nat) || ((97 <=? n)%nat && (n <=? 122)%nat).

Fixpoint trimLeft (s : string) : string :=
  match s with
  | String " " s' => trimLeft s'
  | _ => s
  end.

(** The identifier of [name] followed by spaces only. *)
Fixpoint identThenSpaces (s : string) : option string :=
  match s with
  | EmptyString => Some EmptyString
  | String c s' =>
      if isLetter c then
        match identThenSpaces s' with
        | Some name => Some (String c name)
        | None => None
        end
      else if String.eqb (trimLeft s) "" then Some EmptyString else None
  end.

(** The body of an action that is a single field [.Name]. *)
Definition fieldOf (body : string) : option string :=
  match trimLeft body with
  | String "." s =>
      match identThenSpaces s with
      | Some EmptyString => None
      | other => other
      end
  | _ => None
  end.

Definition fieldAction (name : string) : parse.Node :=
  parse.ofAction
    (parse.Build_ActionNode
       (parse.Build_PipeNode
          [parse.Build_CommandNode [parse.ofField {| parse.Ident := [name] |}]])).

Definition textNodes (text : string) : list parse.Node :=
  if String.eqb text "" then [] else [parse.ofText {| parse.Text := text |}].

Fixpoint parseFrom (fuel : nat) (s : string) : list parse.Node * option error :=
  match fuel with
  | O => ([], Some "template too long"%string)
  | S fuel =>
      match cutDelim "{" s with
      | None => (textNodes s, None)
      | Some (text, rest) =>
          match cutDelim "}" rest with
          | None => ([], Some "unclosed action"%string)
          | Some (body, rest) =>
              match fieldOf body with
              | None => ([], Some "unsupported action"%string)
              | Some name =>
                  let '(nodes, err) := parseFrom fuel rest in
                  match err with
                  | Some err => ([], Some err)
                  | None => (textNodes text ++ fieldAction name :: nodes, None)
                  end
              end
          end
      end
  end.

Definition Parse (tmpl : string) : list parse.Node * option error :=
  parseFrom (S (String.length tmpl)) tmpl.

(** Text is copied; a field action prints the value bound to the field. *)
Definition walk (vars : gmap string string) (s : unit) (node : parse.Node)
    : string * unit * option error :=
  match node with
  | parse.ofText t => (parse.Text t, s, None)
  | parse.ofAction
      (parse.Build_ActionNode
         (parse.Build_PipeNode
            [parse.Build_CommandNode [parse.ofField {| parse.Ident := [name] |}]])) =>
      match vars !! name with
      | Some v => (v, s, None)
      | None => ("<no value>"%string, s, None)
      end
  | _ => (""%string, s, Some "unsupported node"%string)
  end.

(** One token per byte. *)
Definition encode (s : string) : list Z * option error :=
  (map (fun c => Z.of_nat (nat_of_ascii c)) (list_ascii_of_string s), None).

(** A tokenizer that always fails. *)
Definition encodeFails (s : string) : list Z * option error :=
  ([], Some "encode failed"%string).

Definition Prompt := Prompt Parse unit tt walk.
Definition Prompt_heap := Prompt_heap Parse unit tt walk.
Definition countTokens := countTokens Parse unit tt walk.
Definition segment := segment ToLower.
Definition survivors := survivors Parse unit tt walk ToLower.
Definition ChatPrompt := ChatPrompt Parse unit tt walk ToLower.

Definition user (text : string) (images : list api.ImageData) : api.Message :=
  {| api.Role := "user"; api.Content := text; api.Images := images |}.
Definition assistant (text : string) : api.Message :=
  {| api.Role := "assistant"; api.Content := text; api.Images := [] |}.
Definition system (text : string) : api.Message :=
  {| api.Role := "system"; api.Content := text; api.Images := [] |}.

Definition tmpl : string := "[INST] {{ .System }} {{ .Prompt }} [/INST] {{ .Response }}".

End Toy.

(** ** Conversations and loop states to run the program on *)
Module Cases.

(** Two turns, no image, no system prompt of the model. *)
Definition twoTurns : list api.Message :=
  [Toy.user "first question" [];
   Toy.assistant "first answer";
   Toy.user "second question" []].

Definition image (ID : Z) : llm.ImageData := {| llm.ID := ID; llm.Data := [] |}.

(** The oldest prompt holds three images. *)
Definition threeImages : list prompt.t :=
  [prompt.mk "" true "look [img-0] [img-1] [img-2]" true "" false
             [image 0; image 1; image 2] 2340;
   prompt.mk "" false "and now?" true "" false [] 25].

(** [A(instruction = "sys1", user = "u1"); B(no instruction, user = "u2")] *)
Definition carry : list prompt.t :=
  [prompt.mk "sys1" true "u1" true "" false [] 24;
   prompt.mk "" false "u2" true "" false [] 20].

(** The same with no instruction in [A] and a third prompt. *)
Definition noCarry : list prompt.t :=
  [prompt.mk "" true "u1" true "" false [] 20;
   prompt.mk "" false "u2" true "" false [] 20;
   prompt.mk "" false "u3" true "" false [] 20].

(** Both prompts have an instruction. *)
Definition ownSystem : list prompt.t :=
  [prompt.mk "sys1" true "u1" true "" false [] 24;
   prompt.mk "sys2" true "u2" true "" false [] 24].

Definition moderator : api.Message :=
  {| api.Role := "moderator"; api.Content := "stop"; api.Images := [] |}.
Definition MODERATOR : api.Message :=
  {| api.Role := "MODERATOR"; api.Content := "stop"; api.Images := [] |}.

Definition withModerator : list api.Message :=
  [Toy.user "hi" []; moderator; Toy.user "later" []].

(** Two user messages with one image each. *)
Definition twoImages : list api.Message :=
  [Toy.user "one" [[]]; Toy.assistant "seen"; Toy.user "two" [[]]].

Definition lowerCase : list api.Message :=
  [Toy.system "be brief"; Toy.user "hi" []; Toy.assistant "hello"].
Definition mixedCase : list api.Message :=
  [ {| api.Role := "SYSTEM"; api.Content := "be brief"; api.Images := [] |};
    {| api.Role := "User"; api.Content := "hi"; api.Images := [] |};
    {| api.Role := "Assistant"; api.Content := "hello"; api.Images := [] |} ].

(** The two prompts of [twoTurns]. *)
Definition turn1 : prompt.t :=
  prompt.mk "" true "first question" true "first answer" true [] 0.
Definition turn2 : prompt.t :=
  prompt.mk "" false "second question" true "" false [] 0.

(** A template with text behind the marker, and its nodes. *)
Definition tailTmpl : string := "a{{.Prompt}}b{{ .Response }} tail".
Definition tailPre : list parse.Node :=
  [parse.ofText {| parse.Text := "a" |};
   Toy.fieldAction "Prompt";
   parse.ofText {| parse.Text := "b" |}].
Definition tailPost : list parse.Node :=
  [parse.ofText {| parse.Text := " tail" |}].

End Cases.

(** ** Notions used in the statements *)

(** A top-level node is the marker when it is an action node that
    [isResponseNode] accepts. *)
Definition isMarker (node : parse.Node) : bool :=
  match node with
  | parse.ofAction actionNode => isResponseNode actionNode
  | _ => false
  end.

Definition noMarker (nodes : list parse.Node) : Prop :=
  Forall (fun node => isMarker node = false) nodes.

(** The data a template is executed against: [vars] in [Prompt]. *)
Definition bindings (system prompt response : string) : gmap string string :=
  {[ "System"%string := system;
     "Prompt"%string := prompt;
     "Response"%string := response ]}.

(** A prompt that holds an instruction, a user text or a response. *)
Definition started (p : prompt.t) : bool :=
  prompt.system p || prompt.prompt p || prompt.response p.

(** The roles that ChatPrompt accepts, once in lower case. *)
Definition validRole (role : string) : bool :=
  String.eqb role "system" || String.eqb role "user" || String.eqb role "assistant".

(** The placeholder of the image with ordinal [N]. *)
Definition placeholder (N : Z) : string := "[img-" +:+ itoa N +:+ "]".

(** The placeholders of [k] images numbered from [N] on, each after a space. *)
Fixpoint placeholdersFrom (N : Z) (k : nat) : string :=
  match k with
  | O => ""%string
  | S k => " " +:+ placeholder N +:+ placeholdersFrom (N + 1) k
  end.

(** The image records of the payloads [datas], numbered from [N] on. *)
Fixpoint imagesFrom (N : Z) (datas : list api.ImageData) : list llm.ImageData :=
  match datas with
  | [] => []
  | data :: rest => {| llm.ID := N; llm.Data := data |} :: imagesFrom (N + 1) rest
  end.

(** What the user messages of a conversation contribute, in order: the
    text of each followed by the placeholders of its images, and the
    records of these images, the ordinals running from [N] through the
    whole conversation. *)
Fixpoint userTurns (ToLower : string -> string) (N : Z)
    (messages : list api.Message) : list (string * list llm.ImageData) :=
  match messages with
  | [] => []
  | msg :: rest =>
      if String.eqb (ToLower (api.Role msg)) "user" then
        (api.Content msg +:+ placeholdersFrom N (length (api.Images msg)),
         imagesFrom N (api.Images msg))
        :: userTurns ToLower (N + len (api.Images msg)) rest
      else userTurns ToLower N rest
  end.

(** The number of images attached to the user messages. *)
Fixpoint attached (ToLower : string -> string) (messages : list api.Message) : Z :=
  match messages with
  | [] => 0
  | msg :: rest =>
      (if String.eqb (ToLower (api.Role msg)) "user"
       then len (api.Images msg) else 0) + attached ToLower rest
  end.

(** The user text and the images of the prompts that hold a user text. *)
Definition userPart (p : prompt.t) : list (string * list llm.ImageData) :=
  if prompt.prompt p then [(prompt.Prompt p, prompt.Images p)] else [].

Definition userParts (prompts : list prompt.t) : list (string * list llm.ImageData) :=
  flat_map userPart prompts.

(** A prompt without a user text has no text and no image. *)
Definition bare (p : prompt.t) : Prop :=
  prompt.prompt p = false -> prompt.Prompt p = ""%string /\ prompt.Images p = [].

(** Two messages that differ at most in the letter case of the role. *)
Definition sameButCase (ToLower : string -> string) (m1 m2 : api.Message) : Prop :=
  ToLower (api.Role m1) = ToLower (api.Role m2) /\
  api.Content m1 = api.Content m2 /\
  api.Images m1 = api.Images m2.

(** The IDs of the images of a prompt increase along the slice. *)
Definition orderedImages (p : prompt.t) : Prop :=
  StronglySorted Z.lt (map llm.ID (prompt.Images p)).

(** The first prompt of a list holds the instruction [L], marked present. *)
Definition firstHolds (L : string) (prompts : list prompt.t) : Prop :=
  match prompts with
  | p :: _ => prompt.System p = L /\ prompt.system p = true
  | [] => False
  end.

(** The slots that a prompt has filled, as messages, in the order in which
    a template shows them. *)
Definition slots (p : prompt.t) : list (string * string) :=
  (if prompt.system p then [("system"%string, prompt.System p)] else []) ++
  (if prompt.prompt p then [("user"%string, prompt.Prompt p)] else []) ++
  (if prompt.response p then [("assistant"%string, prompt.Response p)] else []).

(** What the messages put into the slots: the role in lower case and the
    text, followed for a user message by the placeholders of its images,
    numbered from [N] on. *)
Fixpoint slotsOf (ToLower : string -> string) (N : Z)
    (messages : list api.Message) : list (string * string) :=
  match messages with
  | [] => []
  | msg :: rest =>
      if String.eqb (ToLower (api.Role msg)) "user" then
        ("user"%string,
         api.Content msg +:+ placeholdersFrom N (length (api.Images msg)))
        :: slotsOf ToLower (N + len (api.Images msg)) rest
      else
        (ToLower (api.Role msg), api.Content msg) :: slotsOf ToLower N rest
  end.

(** [p'] is [p] but for its instruction, its token count and the images it
    has lost at the front. *)
Definition sameTurn (p p' : prompt.t) : Prop :=
  prompt.system p' = prompt.system p /\
  prompt.Prompt p' = prompt.Prompt p /\
  prompt.prompt p' = prompt.prompt p /\
  prompt.Response p' = prompt.Response p /\
  prompt.response p' = prompt.response p /\
  prompt.Images p' `suffix_of` prompt.Images p.

(** [prompts'] is [prompts] without its first [k] prompts, the first one
    that is left being the same turn as it was. *)
Definition frontCut (prompts prompts' : list prompt.t) : Prop :=
  exists (k : nat) p p',
    prompts !! k = Some p /\
    prompts' = p' :: drop (S k) prompts /\
    sameTurn p p'.

(** A message and a prompt without the bytes of their images. *)
Definition withoutPayload (msg : api.Message) : api.Message :=
  {| api.Role := api.Role msg;
     api.Content := api.Content msg;
     api.Images := map (fun _ => []) (api.Images msg) |}.

Definition erasePayload (p : prompt.t) : prompt.t :=
  prompt.set_Images
    (map (fun img => {| llm.ID := llm.ID img; llm.Data := [] |}) (prompt.Images p))
    p.

(** * Properties *)

(** ** Go integers *)

Lemma wrap_small z : min_int <= z <= max_int -> wrap z = z.
Proof.
  unfold wrap, min_int, max_int. intros H.
  rewrite Z.mod_small by lia. lia.
Qed.

Lemma wrap_range z : min_int <= wrap z <= max_int.
Proof.
  unfold wrap, min_int, max_int.
  pose proof (Z.mod_pos_bound (z + 2 ^ 63) (2 ^ 64) ltac:(lia)). lia.
Qed.

Lemma wrap_add_l a b : wrap (wrap a + b) = wrap (a + b).
Proof.
  unfold wrap.
  replace ((a + 2 ^ 63) mod 2 ^ 64 - 2 ^ 63 + b + 2 ^ 63)
    with ((a + 2 ^ 63) mod 2 ^ 64 + b) by lia.
  rewrite Zplus_mod_idemp_l. f_equal. f_equal. lia.
Qed.

Lemma int_sub_exact a b :
  min_int <= a - b <= max_int -> int_sub a b = a - b.
Proof. apply wrap_small. Qed.

Lemma int_add_exact a b :
  min_int <= a + b <= max_int -> int_add a b = a + b.
Proof. apply wrap_small. Qed.

(** ** Strings *)

Lemma append_cons c (s t : string) : String c s +:+ t = String c (s +:+ t).
Proof. reflexivity. Qed.

Lemma append_nil_l (s : string) : "" +:+ s = s.
Proof. reflexivity. Qed.

Lemma append_nil_r (s : string) : s +:+ "" = s.
Proof. induction s as [|c s IH]; [done|]. by rewrite append_cons, IH. Qed.

Lemma append_assoc (s t u : string) : (s +:+ t) +:+ u = s +:+ (t +:+ u).
Proof. induction s as [|c s IH]; [done|]. by rewrite !append_cons, IH. Qed.

Lemma append_length (s t : string) :
  String.length (s +:+ t) = (String.length s + String.length t)%nat.
Proof. induction s as [|c s IH]; [done|]. rewrite append_cons. simpl. by rewrite IH. Qed.

Lemma append_inj_r (s t u : string) : s +:+ u = t +:+ u -> s = t.
Proof.
  revert t. induction s as [|c s IH]; intros [|d t] H.
  - done.
  - apply (f_equal String.length) in H.
    rewrite append_nil_l, append_cons in H. simpl in H.
    rewrite append_length in H. lia.
  - apply (f_equal String.length) in H.
    rewrite append_nil_l, append_cons in H. simpl in H.
    rewrite append_length in H. lia.
  - rewrite !append_cons in H. injection H as -> H. f_equal. by apply IH.
Qed.

(** ** Decimal numerals *)

Lemma to_int_proper (z : Z) :
  Z.to_int z <> Decimal.Pos Decimal.Nil /\ Z.to_int z <> Decimal.Neg Decimal.Nil.
Proof.
  destruct z as [|p|p]; simpl; split; try discriminate;
    intros [= H]; by apply (Unsigned.to_uint_nonnil p).
Qed.

Lemma itoa_inj (a b : Z) : itoa a = itoa b -> a = b.
Proof.
  unfold itoa. intros H.
  apply (f_equal NilZero.int_of_string) in H.
  destruct (to_int_proper a) as [Ha1 Ha2], (to_int_proper b) as [Hb1 Hb2].
  rewrite !NilZero.isi in H by done.
  injection H as H. apply (f_equal Z.of_int) in H.
  by rewrite !DecimalZ.of_to in H.
Qed.

(** ** The marker of a template *)

Lemma formatRange_noMarker cut rest i Nodes found :
  noMarker rest -> formatRange cut rest i Nodes found = (Nodes, found).
Proof.
  intros H. revert i. induction H as [|node rest Hn _ IH]; intros i; [done|].
  simpl. destruct node as [f|a|t|o]; try apply IH.
  simpl in Hn. rewrite Hn. apply IH.
Qed.

Lemma formatRange_cut pre m post i Nodes found :
  noMarker pre -> isMarker m = true ->
  formatRange true (pre ++ m :: post) i Nodes found
  = (take (i + length pre + 1) Nodes, true).
Proof.
  intros H Hm. revert i. induction H as [|node rest Hn _ IH]; intros i.
  - simpl. destruct m as [f|a|t|o]; try discriminate.
    simpl in Hm. rewrite Hm. do 2 f_equal. lia.
  - simpl. replace (i + S (length rest) + 1)%nat with (S i + length rest + 1)%nat by lia.
    destruct node as [f|a|t|o]; try apply IH.
    simpl in Hn. rewrite Hn. apply IH.
Qed.

Lemma formatRange_found_keep rest i Nodes :
  formatRange false rest i Nodes true = (Nodes, true).
Proof.
  revert i. induction rest as [|node rest IH]; intros i; [done|].
  simpl. destruct node as [f|a|t|o]; try apply IH.
  destruct (isResponseNode a); apply IH.
Qed.

Lemma formatRange_keep pre m post i Nodes found :
  noMarker pre -> isMarker m = true ->
  formatRange false (pre ++ m :: post) i Nodes found = (Nodes, true).
Proof.
  intros H Hm. revert i. induction H as [|node rest Hn _ IH]; intros i.
  - simpl. destruct m as [f|a|t|o]; try discriminate.
    simpl in Hm. rewrite Hm. apply formatRange_found_keep.
  - simpl. destruct node as [f|a|t|o]; try apply IH.
    simpl in Hn. rewrite Hn. apply IH.
Qed.

Lemma formatTemplateForResponse_noMarker nodes cut :
  noMarker nodes ->
  formatTemplateForResponse nodes cut = nodes ++ [parse.ofAction responseActionNode].
Proof.
  intros H. unfold formatTemplateForResponse.
  by rewrite formatRange_noMarker.
Qed.

Lemma formatTemplateForResponse_cut pre m post :
  noMarker pre -> isMarker m = true ->
  formatTemplateForResponse (pre ++ m :: post) true = pre ++ [m].
Proof.
  intros H Hm. unfold formatTemplateForResponse.
  rewrite (formatRange_cut pre m post) by done. simpl.
  replace (length pre + 1)%nat with (length (pre ++ [m])) by (rewrite length_app; simpl; lia).
  replace (pre ++ m :: post) with ((pre ++ [m]) ++ post) by (by rewrite <- app_assoc).
  by rewrite take_app_length.
Qed.

Lemma formatTemplateForResponse_keep pre m post :
  noMarker pre -> isMarker m = true ->
  formatTemplateForResponse (pre ++ m :: post) false = pre ++ m :: post.
Proof.
  intros H Hm. unfold formatTemplateForResponse.
  by rewrite (formatRange_keep pre m post).
Qed.

(** Every node list either has no marker or splits at its first one. *)
Lemma first_marker nodes :
  noMarker nodes \/
  exists pre m post, nodes = pre ++ m :: post /\ noMarker pre /\ isMarker m = true.
Proof.
  induction nodes as [|node nodes IH]; [left; constructor|].
  destruct (isMarker node) eqn:Hn.
  - right. exists [], node, nodes. repeat split; [constructor|done].
  - destruct IH as [IH|(pre & m & post & -> & Hpre & Hm)].
    + left. by constructor.
    + right. exists (node :: pre), m, post. repeat split; [by constructor|done].
Qed.

(** The node that is appended is a marker. *)
Lemma isMarker_responseActionNode :
  isMarker (parse.ofAction responseActionNode) = true.
Proof. reflexivity. Qed.

(** X2. Whatever the nodes of a template and whatever [cut], the nodes that
    formatTemplateForResponse leaves hold a marker; with [cut = true] the
    first marker is the last node; and formatting a second time changes
    nothing. *)
Theorem X2_marker_always_present nodes cut :
  Exists (fun node => isMarker node = true)
         (formatTemplateForResponse nodes cut) /\
  (exists pre m,
     formatTemplateForResponse nodes true = pre ++ [m] /\
     noMarker pre /\ isMarker m = true) /\
  formatTemplateForResponse (formatTemplateForResponse nodes cut) cut
    = formatTemplateForResponse nodes cut.
Proof.
  destruct (first_marker nodes) as [Hno|(pre & m & post & -> & Hpre & Hm)].
  - rewrite !formatTemplateForResponse_noMarker by done. split_and!.
    + apply Exists_app. right. by constructor.
    + by exists nodes, (parse.ofAction responseActionNode).
    + destruct cut.
      * by rewrite formatTemplateForResponse_cut.
      * by rewrite formatTemplateForResponse_keep.
  - split_and!.
    + destruct cut.
      * rewrite formatTemplateForResponse_cut by done.
        apply Exists_app. right. by constructor.
      * rewrite formatTemplateForResponse_keep by done.
        apply Exists_app. right. by constructor.
    + exists pre, m. by rewrite formatTemplateForResponse_cut.
    + destruct cut.
      * rewrite (formatTemplateForResponse_cut pre m post) by done.
        by rewrite (formatTemplateForResponse_cut pre m []).
      * by rewrite !formatTemplateForResponse_keep.
Qed.

(** ** The renderer *)
Section Renderer.

Variable Parse : string -> list parse.Node * option error.
Variable state : Type.
Variable newState : state.
Variable walk :
  gmap string string -> state -> parse.Node -> string * state * option error.

Local Abbreviation walkList' := (walkList state walk).
Local Abbreviation Execute' := (Execute state newState walk).
Local Abbreviation Prompt' := (Prompt Parse state newState walk).
Local Abbreviation Prompt_heap' := (Prompt_heap Parse state newState walk).

Lemma bindings_Response system prompt response :
  bindings system prompt response !! "Response"%string = Some response.
Proof. unfold bindings. by simplify_map_eq. Qed.

Lemma walkList_app vars s nodes nodes' :
  walkList' vars s (nodes ++ nodes') =
  let '(out, s', err) := walkList' vars s nodes in
  match err with
  | Some err => (out, s', Some err)
  | None => let '(out', s'', err') := walkList' vars s' nodes' in
            (out +:+ out', s'', err')
  end.
Proof.
  revert s. induction nodes as [|node nodes IH]; intros s; simpl.
  - by destruct (walkList' vars s nodes') as [[out' s''] err'].
  - destruct (walk vars s node) as [[out s1] [err|]]; [done|].
    rewrite IH. destruct (walkList' vars s1 nodes) as [[out1 s2] [err1|]]; [done|].
    destruct (walkList' vars s2 nodes') as [[out' s''] err'].
    by rewrite append_assoc.
Qed.

(** What prompt.go relies on from the executor: the action [{{ .Response }}]
    prints the value bound to [Response] and leaves the state as it is. *)
Hypothesis walk_Response : forall vars s v,
  vars !! "Response"%string = Some v ->
  walk vars s (parse.ofAction responseActionNode) = (v, s, None).

Lemma Execute_appended nodes system prompt response :
  Execute' (nodes ++ [parse.ofAction responseActionNode])
          (bindings system prompt response) =
  match Execute' nodes (bindings system prompt response) with
  | (out, None) => (out +:+ response, None)
  | (out, Some err) => (out, Some err)
  end.
Proof.
  unfold Execute. rewrite walkList_app.
  destruct (walkList' _ newState nodes) as [[out s] [err|]]; [done|].
  simpl. rewrite (walk_Response _ _ response) by apply bindings_Response.
  simpl. by rewrite append_nil_r.
Qed.

Lemma Prompt_unfold tmpl system prompt response cut :
  Prompt' tmpl system prompt response cut =
  match Parse tmpl with
  | (_, Some err) => (""%string, Some err)
  | (nodes, None) =>
      match Execute' (formatTemplateForResponse nodes cut)
                    (bindings system prompt response) with
      | (_, Some err) => (""%string, Some err)
      | (sb, None) => (sb, None)
      end
  end.
Proof.
  unfold Prompt, bindings.
  destruct (Parse tmpl) as [nodes [err|]]; [done|].
  by destruct (Execute' _ _) as [sb [err|]].
Qed.

(** C5. A template whose top-level nodes hold no marker gets the node
    [{{ .Response }}] appended, whatever [cut] is, so that the text
    returned is the text of the template followed by the response; a
    template with a marker, rendered with [cut = true], keeps exactly its
    top-level nodes up to and including the first marker, so that the text
    returned is the text of that prefix and of nothing behind it. *)
Theorem C5_marker_appended_or_cut tmpl nodes system prompt response :
  Parse tmpl = (nodes, None) ->
  (noMarker nodes -> forall cut,
     formatTemplateForResponse nodes cut
       = nodes ++ [parse.ofAction responseActionNode] /\
     Prompt' tmpl system prompt response cut =
       match Execute' nodes (bindings system prompt response) with
       | (out, None) => (out +:+ response, None)
       | (_, Some err) => (""%string, Some err)
       end) /\
  (forall pre m post,
     nodes = pre ++ m :: post -> noMarker pre -> isMarker m = true ->
     formatTemplateForResponse nodes true = pre ++ [m] /\
     Prompt' tmpl system prompt response true =
       match Execute' (pre ++ [m]) (bindings system prompt response) with
       | (out, None) => (out, None)
       | (_, Some err) => (""%string, Some err)
       end).
Proof.
  intros HP. split.
  - intros Hno cut.
    pose proof (formatTemplateForResponse_noMarker nodes cut Hno) as Hf.
    split; [exact Hf|].
    rewrite Prompt_unfold, HP, Hf, Execute_appended.
    by destruct (Execute' nodes _) as [out [err|]].
  - intros pre m post -> Hpre Hm.
    pose proof (formatTemplateForResponse_cut pre m post Hpre Hm) as Hf.
    split; [exact Hf|].
    by rewrite Prompt_unfold, HP, Hf.
Qed.

(** *** The compiled template on the heap *)

Lemma Nodes_of_fresh (h : heap) nodes : Nodes_of (h ++ [nodes]) (length h) = nodes.
Proof. unfold Nodes_of. by rewrite list_lookup_middle. Qed.

Lemma insert_fresh (h : heap) nodes nodes' :
  <[length h := nodes']> (h ++ [nodes]) = h ++ [nodes'].
Proof.
  rewrite insert_app_r_alt by lia. by rewrite Nat.sub_diag.
Qed.

Lemma formatRange_heap_fresh cut rest i (h : heap) nodes found :
  formatRange_heap cut rest i (length h) (h ++ [nodes]) found =
  (h ++ [(formatRange cut rest i nodes found).1], (formatRange cut rest i nodes found).2).
Proof.
  revert i found. induction rest as [|node rest IH]; intros i found; [done|].
  simpl. destruct node as [f|a|t|o]; try apply IH.
  destruct (isResponseNode a); [|apply IH].
  destruct cut; [|apply IH].
  by rewrite Nodes_of_fresh, insert_fresh.
Qed.

Lemma formatTemplateForResponse_heap_fresh (h : heap) nodes cut :
  formatTemplateForResponse_heap (h ++ [nodes]) (length h) cut =
  h ++ [formatTemplateForResponse nodes cut].
Proof.
  unfold formatTemplateForResponse_heap, formatTemplateForResponse.
  rewrite Nodes_of_fresh, formatRange_heap_fresh.
  destruct (formatRange cut nodes 0 nodes false) as [nodes' found]. simpl.
  destruct found; simpl; [done|].
  by rewrite Nodes_of_fresh, insert_fresh.
Qed.

Lemma Prompt_heap_spec (h : heap) tmpl system prompt response cut :
  exists new,
    Prompt_heap' h tmpl system prompt response cut =
    (Prompt' tmpl system prompt response cut, h ++ new).
Proof.
  unfold Prompt_heap, Prompt.
  destruct (Parse tmpl) as [nodes [err|]].
  - exists []. by rewrite app_nil_r.
  - rewrite formatTemplateForResponse_heap_fresh, Nodes_of_fresh.
    exists [formatTemplateForResponse nodes cut].
    by destruct (Execute' _ _) as [sb [err|]].
Qed.

(** C9. [Prompt] compiles its own template on every call: run on any two
    heaps of compiled templates it returns the same text or the same
    error, the one its arguments determine, and it leaves every template
    that was on the heap before the call as it was. *)
Theorem C9_Prompt_deterministic_and_fresh (h1 h2 : heap)
    tmpl system prompt response cut :
  (Prompt_heap' h1 tmpl system prompt response cut).1
    = (Prompt_heap' h2 tmpl system prompt response cut).1 /\
  (Prompt_heap' h1 tmpl system prompt response cut).1
    = Prompt' tmpl system prompt response cut /\
  take (length h1) (Prompt_heap' h1 tmpl system prompt response cut).2 = h1.
Proof.
  destruct (Prompt_heap_spec h1 tmpl system prompt response cut) as [n1 E1].
  destruct (Prompt_heap_spec h2 tmpl system prompt response cut) as [n2 E2].
  rewrite E1, E2. simpl. repeat split.
  by rewrite take_app_length.
Qed.

(** X1. When the template has a marker and [cut] is false, the nodes are
    left as they are and [Prompt] returns the text of the whole template,
    the part behind the marker included. *)
Theorem X1_marker_kept_whole tmpl pre m post system prompt response :
  Parse tmpl = (pre ++ m :: post, None) ->
  noMarker pre -> isMarker m = true ->
  formatTemplateForResponse (pre ++ m :: post) false = pre ++ m :: post /\
  Prompt' tmpl system prompt response false =
    match Execute' (pre ++ m :: post) (bindings system prompt response) with
    | (out, None) => (out, None)
    | (_, Some err) => (""%string, Some err)
    end.
Proof.
  intros HP Hpre Hm.
  pose proof (formatTemplateForResponse_keep pre m post Hpre Hm) as Hf.
  split; [exact Hf|]. by rewrite Prompt_unfold, HP, Hf.
Qed.

Lemma Execute_app_ok nodes nodes' vars out :
  Execute' (nodes ++ nodes') vars = (out, None) ->
  exists head tail, Execute' nodes vars = (head, None) /\ out = head +:+ tail.
Proof.
  unfold Execute. rewrite walkList_app.
  destruct (walkList' vars newState nodes) as [[head s] [err|]]; [done|].
  destruct (walkList' vars s nodes') as [[tail s'] err'].
  intros [= <- ->]. eauto.
Qed.

(** X3. When [Prompt] succeeds with [cut = false] it succeeds with
    [cut = true] as well, and the text it returns then is a prefix of the
    full text. *)
Theorem X3_cut_text_is_prefix tmpl system prompt response full :
  Prompt' tmpl system prompt response false = (full, None) ->
  exists head tail,
    Prompt' tmpl system prompt response true = (head, None) /\
    full = head +:+ tail.
Proof.
  rewrite !Prompt_unfold.
  destruct (Parse tmpl) as [nodes [err|]]; [done|].
  destruct (first_marker nodes) as [Hno|(pre & m & post & -> & Hpre & Hm)].
  - rewrite !formatTemplateForResponse_noMarker by done.
    destruct (Execute' _ _) as [out [err|]]; [done|].
    intros [= <-]. exists out, ""%string. by rewrite append_nil_r.
  - rewrite formatTemplateForResponse_keep, formatTemplateForResponse_cut by done.
    destruct (Execute' (pre ++ m :: post) _) as [out [err|]] eqn:HE; [done|].
    intros [= <-].
    replace (pre ++ m :: post) with ((pre ++ [m]) ++ post) in HE
      by (by rewrite <- app_assoc).
    apply Execute_app_ok in HE as (head & tail & -> & ->). eauto.
Qed.

Lemma Nodes_of_insert (h : heap) tmpl nodes :
  (tmpl < length h)%nat -> Nodes_of (<[tmpl := nodes]> h) tmpl = nodes.
Proof. intros H. unfold Nodes_of. by rewrite list_lookup_insert_eq. Qed.

Lemma insert_Nodes_of (h : heap) tmpl :
  (tmpl < length h)%nat -> <[tmpl := Nodes_of h tmpl]> h = h.
Proof.
  intros H. unfold Nodes_of. apply lookup_lt_is_Some in H as [nodes Hn].
  rewrite Hn. simpl. by apply list_insert_id.
Qed.

Lemma formatRange_heap_at cut rest i tmpl (h : heap) found :
  (tmpl < length h)%nat ->
  formatRange_heap cut rest i tmpl h found =
  (<[tmpl := (formatRange cut rest i (Nodes_of h tmpl) found).1]> h,
   (formatRange cut rest i (Nodes_of h tmpl) found).2).
Proof.
  intros Hlt. revert i found.
  induction rest as [|node rest IH]; intros i found.
  - simpl. by rewrite insert_Nodes_of.
  - simpl. destruct node as [f|a|t|o]; try apply IH.
    destruct (isResponseNode a); [|apply IH].
    destruct cut; [done|apply IH].
Qed.

(** X15. formatTemplateForResponse writes to the template it is given and
    to no other: on a heap of compiled templates the call leaves every
    other template as it was, and the nodes of its own are the nodes that
    [formatTemplateForResponse] gives for them. *)
Theorem X15_only_its_template_is_written (h : heap) (tmpl : nat) cut :
  (tmpl < length h)%nat ->
  formatTemplateForResponse_heap h tmpl cut
  = <[tmpl := formatTemplateForResponse (Nodes_of h tmpl) cut]> h.
Proof.
  intros Hlt. unfold formatTemplateForResponse_heap, formatTemplateForResponse.
  rewrite (formatRange_heap_at cut (Nodes_of h tmpl) 0 tmpl h false Hlt).
  destruct (formatRange cut (Nodes_of h tmpl) 0 (Nodes_of h tmpl) false)
    as [nodes found]. simpl.
  destruct found; simpl; [done|].
  rewrite Nodes_of_insert by done. by rewrite list_insert_insert_eq.
Qed.

End Renderer.

(** ** The conversation packer *)
Section Packer.

Variable Parse : string -> list parse.Node * option error.
Variable state : Type.
Variable newState : state.
Variable walk :
  gmap string string -> state -> parse.Node -> string * state * option error.
Variable ToLower : string -> string.
Variable loaded_Model_System : string.

Local Abbreviation Prompt' := (Prompt Parse state newState walk).
Local Abbreviation countTokens' := (countTokens Parse state newState walk).
Local Abbreviation segmentMsg' := (segmentMsg ToLower).
Local Abbreviation rangeMessages' := (rangeMessages ToLower).
Local Abbreviation segment' := (segment ToLower loaded_Model_System).
Local Abbreviation costRange' := (costRange Parse state newState walk).
Local Abbreviation truncStep' := (truncStep Parse state newState walk).
Local Abbreviation truncLoop' := (truncLoop Parse state newState walk).
Local Abbreviation renderRange' := (renderRange Parse state newState walk).
Local Abbreviation survivors' :=
  (survivors Parse state newState walk ToLower loaded_Model_System).
Local Abbreviation ChatPrompt' :=
  (ChatPrompt Parse state newState walk ToLower loaded_Model_System).

(** *** The truncation loop *)

Lemma truncLoop_step tmpl window encode prompts :
  truncLoop' tmpl window encode prompts =
  match truncStep' tmpl window encode prompts with
  | ctlContinue prompts' => truncLoop' tmpl window encode prompts'
  | ctlBreak prompts' => Done prompts'
  | ctlReturn _ err => Failed err
  | ctlPanic => Crashed
  end.
Proof.
  rewrite truncLoop_equation_1. unfold inspect.
  assert (forall c (H : truncStep' tmpl window encode prompts = c),
    truncLoop_unfold_clause_1 Parse state newState walk tmpl window encode
      prompts (c ↾ H) =
    match c with
    | ctlContinue prompts' => truncLoop' tmpl window encode prompts'
    | ctlBreak prompts' => Done prompts'
    | ctlReturn _ err => Failed err
    | ctlPanic => Crashed
    end) as Hc by (by intros [ps'|ps'|s err|] H).
  apply Hc.
Qed.

Lemma truncLoop_continue tmpl window encode prompts prompts' :
  truncStep' tmpl window encode prompts = ctlContinue prompts' ->
  truncLoop' tmpl window encode prompts = truncLoop' tmpl window encode prompts'.
Proof. intros H. by rewrite truncLoop_step, H. Qed.

Lemma truncLoop_break tmpl window encode prompts prompts' :
  truncStep' tmpl window encode prompts = ctlBreak prompts' ->
  truncLoop' tmpl window encode prompts = Done prompts'.
Proof. intros H. by rewrite truncLoop_step, H. Qed.

Lemma truncLoop_return tmpl window encode prompts s err :
  truncStep' tmpl window encode prompts = ctlReturn s err ->
  truncLoop' tmpl window encode prompts = Failed err.
Proof. intros H. by rewrite truncLoop_step, H. Qed.

Lemma over_budget window prompts :
  window < total prompts -> (total prompts <=? window) = false.
Proof. intros H. apply Z.leb_gt. lia. Qed.

Lemma len_cons {A} (x : A) l : len (x :: l) = 1 + len l.
Proof. unfold len. simpl length. lia. Qed.

Lemma len_nonneg {A} (l : list A) : 0 <= len l.
Proof. unfold len. lia. Qed.

(** C2. In a state of the loop that is over the window and whose oldest
    prompt holds more than one image, the pass removes the first image of
    that prompt, takes 768 off its [tokens] in Go's [int] arithmetic, and
    continues with every other field and every other prompt as it was.
    The image removed has the smallest ID of the prompt when the IDs
    increase along the slice, which is how segmentation leaves them and
    how the loop keeps them. *)
Theorem C2_oldest_image_dropped_first tmpl window encode p0 rest :
  window < total (p0 :: rest) ->
  1 < len (prompt.Images p0) ->
  exists img imgs,
    prompt.Images p0 = img :: imgs /\
    truncStep' tmpl window encode (p0 :: rest) =
      ctlContinue
        (prompt.set_tokens (int_sub (prompt.tokens p0) 768)
           (prompt.set_Images imgs p0) :: rest) /\
    truncLoop' tmpl window encode (p0 :: rest) =
      truncLoop' tmpl window encode
        (prompt.set_tokens (int_sub (prompt.tokens p0) 768)
           (prompt.set_Images imgs p0) :: rest) /\
    (min_int + 768 <= prompt.tokens p0 <= max_int ->
     int_sub (prompt.tokens p0) 768 = prompt.tokens p0 - 768) /\
    (orderedImages p0 -> Forall (fun img' => llm.ID img < llm.ID img') imgs).
Proof.
  intros Hover Himg.
  destruct (prompt.Images p0) as [|img imgs] eqn:HI.
  { unfold len in Himg. simpl in Himg. lia. }
  assert (truncStep' tmpl window encode (p0 :: rest) =
      ctlContinue
        (prompt.set_tokens (int_sub (prompt.tokens p0) 768)
           (prompt.set_Images imgs p0) :: rest)) as Hstep.
  { unfold truncStep. rewrite over_budget by done.
    rewrite HI. apply Z.ltb_lt in Himg. rewrite Himg.
    simpl drop. by rewrite drop_0. }
  exists img, imgs. split_and!; [done|done| | |].
  - by apply truncLoop_continue.
  - intros H. apply int_sub_exact. unfold min_int, max_int in *. lia.
  - unfold orderedImages. rewrite HI. simpl.
    intros [_ Hall]%StronglySorted_inv. by rewrite Forall_map in Hall.
Qed.

(** C3. In a state of the loop that is over the window, whose oldest
    prompt holds at most one image and is followed by another prompt, the
    pass removes the oldest prompt.  If its [System] was empty the loop
    continues from the remaining prompts.  If it was not, the loop ends
    there, whatever the total: with the remaining prompts as they are when
    the new oldest prompt has a [System] of its own, and otherwise with the
    removed [System] assigned to the new oldest prompt and its [tokens] set
    to the count of [countTokens] plus 768 for each of its images (or with
    the error of [countTokens]). *)
Theorem C3_system_carried_then_stop tmpl window encode p0 q rest :
  window < total (p0 :: q :: rest) ->
  len (prompt.Images p0) <= 1 ->
  (prompt.System p0 = ""%string ->
     truncStep' tmpl window encode (p0 :: q :: rest) = ctlContinue (q :: rest) /\
     truncLoop' tmpl window encode (p0 :: q :: rest) =
       truncLoop' tmpl window encode (q :: rest)) /\
  (prompt.System p0 <> ""%string ->
     (prompt.System q <> ""%string ->
        truncLoop' tmpl window encode (p0 :: q :: rest) = Done (q :: rest)) /\
     (prompt.System q = ""%string ->
        truncLoop' tmpl window encode (p0 :: q :: rest) =
        match countTokens' tmpl (prompt.System p0) (prompt.Prompt q)
                (prompt.Response q) encode with
        | (tokens, None) =>
            Done (prompt.set_tokens
                    (int_add tokens (int_mul (len (prompt.Images q)) 768))
                    (prompt.set_System (prompt.System p0) q) :: rest)
        | (_, Some err) => Failed err
        end)).
Proof.
  intros Hover Himg.
  assert (truncStep' tmpl window encode (p0 :: q :: rest) =
    if String.eqb (prompt.System p0) "" then ctlContinue (q :: rest) else
    if String.eqb (prompt.System q) "" then
      match countTokens' tmpl (prompt.System p0) (prompt.Prompt q)
              (prompt.Response q) encode with
      | (tokens, None) =>
          ctlBreak (prompt.set_tokens
                      (int_add tokens (int_mul (len (prompt.Images q)) 768))
                      (prompt.set_System (prompt.System p0) q) :: rest)
      | (_, Some err) => ctlReturn "" err
      end
    else ctlBreak (q :: rest)) as Hstep.
  { unfold truncStep. rewrite over_budget by done.
    assert ((1 <? len (prompt.Images p0)) = false) as -> by (apply Z.ltb_ge; lia).
    assert ((1 <? len (p0 :: q :: rest)) = true) as ->.
    { apply Z.ltb_lt. rewrite !len_cons. pose proof (len_nonneg rest). lia. }
    destruct (String.eqb (prompt.System p0) ""); [done|].
    destruct (String.eqb (prompt.System q) ""); [|done].
    simpl. by destruct (countTokens' _ _ _ _ _) as [tokens [err|]]. }
  split.
  - intros H0. rewrite H0 in Hstep. simpl in Hstep.
    split; [done|]. by apply truncLoop_continue.
  - intros H0. apply String.eqb_neq in H0. rewrite H0 in Hstep. split.
    + intros Hq. apply String.eqb_neq in Hq. rewrite Hq in Hstep.
      by apply truncLoop_break.
    + intros Hq. rewrite Hq in Hstep. simpl in Hstep.
      rewrite truncLoop_step, Hstep.
      by destruct (countTokens' _ _ _ _ _) as [tokens [err|]].
Qed.

(** *** Segmentation *)

Lemma rangeImages_fields Images p images p' images' :
  rangeImages Images p images = (p', images') ->
  prompt.System p' = prompt.System p /\
  prompt.system p' = prompt.system p /\
  prompt.prompt p' = prompt.prompt p /\
  prompt.Response p' = prompt.Response p /\
  prompt.response p' = prompt.response p /\
  prompt.tokens p' = prompt.tokens p.
Proof.
  revert p images. induction Images as [|data rest IH]; intros p images; simpl.
  - by intros [= <- <-].
  - intros H. apply IH in H. by destruct p.
Qed.

(** What [segmentMsg] does is decided by the lower-case role. *)
Lemma segmentMsg_valid st msg :
  validRole (ToLower (api.Role msg)) = true ->
  exists st', segmentMsg' st msg = inl st'.
Proof.
  destruct st as [[prompts p] images]. unfold validRole, segmentMsg. intros Hv.
  destruct (String.eqb (ToLower (api.Role msg)) "system").
  { destruct (prompt.system p || prompt.prompt p || prompt.response p); simpl; eauto. }
  destruct (String.eqb (ToLower (api.Role msg)) "user").
  { destruct (prompt.prompt p || prompt.response p); simpl; destruct (rangeImages _ _ _); eauto. }
  destruct (String.eqb (ToLower (api.Role msg)) "assistant"); [|done].
  destruct (prompt.response p); simpl; eauto.
Qed.

Lemma segmentMsg_invalid st msg :
  validRole (ToLower (api.Role msg)) = false ->
  segmentMsg' st msg = inr (invalidRole (api.Role msg)).
Proof.
  destruct st as [[prompts p] images]. unfold validRole, segmentMsg.
  destruct (String.eqb (ToLower (api.Role msg)) "system"); [done|].
  destruct (String.eqb (ToLower (api.Role msg)) "user"); [done|].
  by destruct (String.eqb (ToLower (api.Role msg)) "assistant").
Qed.

Lemma segmentMsg_inl st msg st' :
  segmentMsg' st msg = inl st' -> validRole (ToLower (api.Role msg)) = true.
Proof.
  intros H. destruct (validRole (ToLower (api.Role msg))) eqn:Hv; [done|].
  by rewrite segmentMsg_invalid in H.
Qed.

(** After any message the current prompt is started, and no prompt has
    been given a token count. *)
Lemma started_system p : prompt.system p = true -> started p = true.
Proof. unfold started. by intros ->. Qed.

Lemma started_prompt p : prompt.prompt p = true -> started p = true.
Proof. unfold started. intros ->. by destruct (prompt.system p). Qed.

Lemma started_response p : prompt.response p = true -> started p = true.
Proof.
  unfold started. intros ->. by destruct (prompt.system p), (prompt.prompt p).
Qed.

Lemma segmentMsg_started prompts p images msg prompts' p' images' :
  segmentMsg' (prompts, p, images) msg = inl (prompts', p', images') ->
  started p' = true.
Proof.
  unfold segmentMsg.
  destruct (String.eqb (ToLower (api.Role msg)) "system").
  { destruct (prompt.system p || prompt.prompt p || prompt.response p);
      intros [= <- <- <-]; by apply started_system. }
  destruct (String.eqb (ToLower (api.Role msg)) "user").
  { destruct (prompt.prompt p || prompt.response p);
      (destruct (rangeImages _ _ _) as [p1 i1] eqn:HR;
       apply rangeImages_fields in HR as (_ & _ & HR & _);
       intros [= <- <- <-]; apply started_prompt; by rewrite HR). }
  destruct (String.eqb (ToLower (api.Role msg)) "assistant"); [|done].
  destruct (prompt.response p); intros [= <- <- <-]; by apply started_response.
Qed.

Lemma segmentMsg_tokens prompts p images msg prompts' p' images' :
  segmentMsg' (prompts, p, images) msg = inl (prompts', p', images') ->
  Forall (fun p => prompt.tokens p = 0) (prompts ++ [p]) ->
  Forall (fun p => prompt.tokens p = 0) (prompts' ++ [p']).
Proof.
  unfold segmentMsg. intros H HF.
  pose proof HF as HF'. apply Forall_app in HF' as [HF1 HF2].
  apply Forall_inv in HF2.
  assert (forall ps q, Forall (fun p => prompt.tokens p = 0) ps ->
            prompt.tokens q = 0 ->
            Forall (fun p => prompt.tokens p = 0) (ps ++ [q])) as Hsnoc.
  { intros ps q ? ?. apply Forall_app. split; [done|]. by apply Forall_singleton. }
  destruct (String.eqb (ToLower (api.Role msg)) "system").
  { destruct (prompt.system p || prompt.prompt p || prompt.response p);
      simpl in H; injection H as <- <- <-; (apply Hsnoc; [done|rewrite ?HR; by simpl]). }
  destruct (String.eqb (ToLower (api.Role msg)) "user").
  { destruct (prompt.prompt p || prompt.response p);
      destruct (rangeImages _ _ _) as [p1 i1] eqn:HR;
      apply rangeImages_fields in HR as (_ & _ & _ & _ & _ & HR);
      simpl in H; injection H as <- <- <-; (apply Hsnoc; [done|rewrite ?HR; by simpl]). }
  destruct (String.eqb (ToLower (api.Role msg)) "assistant"); [|done].
  destruct (prompt.response p); simpl in H; injection H as <- <- <-;
    (apply Hsnoc; [done|rewrite ?HR; by simpl]).
Qed.

Lemma rangeMessages_started messages prompts p images prompts' p' images' :
  rangeMessages' messages (prompts, p, images) = inl (prompts', p', images') ->
  started p = true -> started p' = true.
Proof.
  revert prompts p images.
  induction messages as [|msg rest IH]; intros prompts p images;
    cbn [rangeMessages].
  - by intros [= <- <- <-].
  - destruct (segmentMsg' (prompts, p, images) msg)
      as [[[prompts1 p1] images1]|err] eqn:HS; [|done].
    intros H _. eapply IH; [exact H|]. by eapply segmentMsg_started.
Qed.

Lemma rangeMessages_tokens messages prompts p images prompts' p' images' :
  rangeMessages' messages (prompts, p, images) = inl (prompts', p', images') ->
  Forall (fun p => prompt.tokens p = 0) (prompts ++ [p]) ->
  Forall (fun p => prompt.tokens p = 0) (prompts' ++ [p']).
Proof.
  revert prompts p images.
  induction messages as [|msg rest IH]; intros prompts p images;
    cbn [rangeMessages].
  - by intros [= <- <- <-].
  - destruct (segmentMsg' (prompts, p, images) msg)
      as [[[prompts1 p1] images1]|err] eqn:HS; [|done].
    intros H HF. eapply IH; [exact H|]. by eapply segmentMsg_tokens.
Qed.

(** Segmentation ends with the current prompt appended: its result is
    never empty, and every [tokens] field is still zero. *)
Lemma segment_snoc messages prompts :
  segment' messages = inl prompts ->
  exists prompts0 p images,
    rangeMessages' messages ([], firstPrompt loaded_Model_System, 0)
      = inl (prompts0, p, images) /\
    prompts = prompts0 ++ [p].
Proof.
  unfold segment.
  destruct (rangeMessages' messages _) as [[[prompts0 p] images]|err] eqn:HR; [|done].
  pose proof (rangeMessages_started _ _ _ _ _ _ _ HR eq_refl) as Hs.
  unfold started in Hs. rewrite Hs. intros [= <-]. eauto.
Qed.

Lemma segment_nonempty messages prompts :
  segment' messages = inl prompts -> prompts <> [].
Proof.
  intros (prompts0 & p & images & _ & ->)%segment_snoc.
  by destruct prompts0.
Qed.

Lemma segment_tokens messages prompts :
  segment' messages = inl prompts ->
  Forall (fun p => prompt.tokens p = 0) prompts.
Proof.
  intros (prompts0 & p & images & HR & ->)%segment_snoc.
  eapply rangeMessages_tokens; [exact HR|].
  by apply Forall_singleton.
Qed.

(** *** Token lengths *)

(** The pass over the prompts returns the slice it was given. *)
Lemma costRange_prompts tmpl encode range prompts :
  (costRange' tmpl encode range prompts).1 = prompts.
Proof.
  induction range as [|p rest IH]; [done|]. simpl.
  destruct (countTokens' _ _ _ _ _) as [tokens [err|]]; [done|]. apply IH.
Qed.

Lemma total_zero prompts :
  Forall (fun p => prompt.tokens p = 0) prompts -> total prompts = 0.
Proof.
  unfold total. induction 1 as [|p prompts Hp _ IH]; [done|].
  simpl. by rewrite Hp.
Qed.

(** *** The loop keeps a prompt *)

Lemma truncStep_weight tmpl window encode prompts prompts' :
  truncStep' tmpl window encode prompts = ctlContinue prompts' ->
  (weight prompts' < weight prompts)%nat.
Proof.
  unfold truncStep, weight.
  destruct (total prompts <=? window); [discriminate|].
  destruct prompts as [|p0 rest]; [discriminate|].
  destruct (1 <? len (prompt.Images p0)) eqn:Himg.
  - intros [= <-]. apply Z.ltb_lt in Himg. unfold len in Himg.
    destruct p0 as [? ? ? ? ? ? [|img imgs] ?]; cbn in *; [lia|].
    rewrite drop_0. lia.
  - destruct (1 <? len (p0 :: rest)); [|discriminate].
    destruct (String.eqb (prompt.System p0) "").
    + intros [= <-]. simpl. lia.
    + destruct rest as [|q rest']; [discriminate|].
      destruct (String.eqb (prompt.System q) ""); [|discriminate].
      destruct (countTokens' _ _ _ _ _) as [tokens [err|]]; discriminate.
Qed.

Lemma truncStep_nonempty tmpl window encode prompts :
  prompts <> [] ->
  match truncStep' tmpl window encode prompts with
  | ctlContinue prompts' | ctlBreak prompts' => prompts' <> []
  | ctlReturn _ _ => True
  | ctlPanic => False
  end.
Proof.
  intros Hne. unfold truncStep.
  destruct (total prompts <=? window); [done|].
  destruct prompts as [|p0 rest]; [done|].
  destruct (1 <? len (prompt.Images p0)); [done|].
  destruct (1 <? len (p0 :: rest)) eqn:Hlen; [|done].
  destruct rest as [|q rest].
  { unfold len in Hlen. simpl in Hlen. done. }
  destruct (String.eqb (prompt.System p0) ""); [done|].
  destruct (String.eqb (prompt.System q) ""); [|done].
  simpl. by destruct (countTokens' _ _ _ _ _) as [tokens [err|]].
Qed.

Lemma truncLoop_nonempty tmpl window encode prompts :
  prompts <> [] ->
  match truncLoop' tmpl window encode prompts with
  | Done prompts' => prompts' <> []
  | Failed _ => True
  | Crashed => False
  end.
Proof.
  remember (weight prompts) as n eqn:Hn. revert prompts Hn.
  induction n as [n IH] using lt_wf_ind. intros prompts -> Hne.
  rewrite truncLoop_step.
  pose proof (truncStep_nonempty tmpl window encode prompts Hne) as Hs.
  destruct (truncStep' tmpl window encode prompts) as [ps'|ps'|s err|] eqn:Hstep;
    try done.
  eapply IH; [|reflexivity|exact Hs].
  eapply truncStep_weight; exact Hstep.
Qed.

(** *** The whole of ChatPrompt *)

Lemma survivors_nonempty tmpl messages window encode :
  match survivors' tmpl messages window encode with
  | Returns prompts None => prompts <> []
  | Returns _ (Some _) => True
  | Panics => False
  end.
Proof.
  unfold survivors.
  destruct (segment' messages) as [prompts|err] eqn:HS; [|done].
  pose proof (costRange_prompts tmpl encode prompts prompts) as HC.
  destruct (costRange' tmpl encode prompts prompts) as [prompts1 [err|]]; [done|].
  simpl in HC. subst prompts1.
  pose proof (truncLoop_nonempty tmpl window encode prompts
                (segment_nonempty _ _ HS)) as HL.
  by destruct (truncLoop' tmpl window encode prompts).
Qed.

Lemma renderRange_rendered tmpl prompts sb out :
  renderRange' tmpl prompts sb = (out, None) ->
  exists rendered,
    Forall2 (fun p r =>
               Prompt' tmpl (prompt.System p) (prompt.Prompt p)
                       (prompt.Response p) true = (r, None))
            prompts rendered /\
    out = sb +:+ foldr String.append ""%string rendered.
Proof.
  revert sb. induction prompts as [|p rest IH]; intros sb; simpl.
  - intros [= <-]. exists []. split; [constructor|]. by rewrite append_nil_r.
  - destruct (Prompt' tmpl _ _ _ true) as [r [err|]] eqn:HP; [done|].
    intros (rendered & HF & ->)%IH. exists (r :: rendered).
    split; [by constructor|]. simpl. by rewrite append_assoc.
Qed.

(** C6. When ChatPrompt succeeds, the prompts that reach the final
    rendering are not empty and the string returned is the concatenation
    of their renderings, one for each; the loop itself never ends with no
    prompt when it started with one, whatever the window and the token
    counts are. *)
Theorem C6_result_never_empty tmpl system messages window encode out :
  ChatPrompt' tmpl system messages window encode = Returns out None ->
  (exists prompts rendered,
     survivors' tmpl messages window encode = Returns prompts None /\
     prompts <> [] /\
     Forall2 (fun p r =>
                Prompt' tmpl (prompt.System p) (prompt.Prompt p)
                        (prompt.Response p) true = (r, None))
             prompts rendered /\
     out = foldr String.append ""%string rendered) /\
  (forall prompts0 prompts1,
     prompts0 <> [] ->
     truncLoop' tmpl window encode prompts0 = Done prompts1 ->
     prompts1 <> []).
Proof.
  intros H. split.
  - unfold ChatPrompt in H.
    pose proof (survivors_nonempty tmpl messages window encode) as Hne.
    destruct (survivors' tmpl messages window encode) as [prompts [err|]|];
      [done| |done].
    destruct (renderRange' tmpl prompts "") as [s err] eqn:HR.
    injection H as -> ->.
    apply renderRange_rendered in HR as (rendered & HF & ->).
    exists prompts, rendered. by rewrite append_nil_l.
  - intros prompts0 prompts1 Hne HL.
    pose proof (truncLoop_nonempty tmpl window encode prompts0 Hne) as H1.
    by rewrite HL in H1.
Qed.


(** A message list with an invalid role splits at the first one. *)
Lemma first_invalid messages :
  Exists (fun msg => validRole (ToLower (api.Role msg)) = false) messages ->
  exists pre msg post,
    messages = pre ++ msg :: post /\
    Forall (fun msg => validRole (ToLower (api.Role msg)) = true) pre /\
    validRole (ToLower (api.Role msg)) = false.
Proof.
  induction messages as [|m rest IH]; [by intros ?%Exists_nil|].
  intros HE. destruct (validRole (ToLower (api.Role m))) eqn:Hm.
  - apply Exists_cons in HE as [HE|HE]; [congruence|].
    destruct (IH HE) as (pre & msg & post & -> & Hpre & Hmsg).
    exists (m :: pre), msg, post. repeat split; [by constructor|done].
  - exists [], m, rest. repeat split; [constructor|done].
Qed.

Lemma rangeMessages_invalid pre msg post st :
  Forall (fun msg => validRole (ToLower (api.Role msg)) = true) pre ->
  validRole (ToLower (api.Role msg)) = false ->
  rangeMessages' (pre ++ msg :: post) st = inr (invalidRole (api.Role msg)).
Proof.
  intros Hpre Hmsg. revert st.
  induction Hpre as [|m pre Hm _ IH]; intros st; cbn [rangeMessages app].
  - by rewrite segmentMsg_invalid.
  - destruct (segmentMsg_valid st m Hm) as [st' ->]. apply IH.
Qed.

Lemma rangeMessages_valid messages st :
  Forall (fun msg => validRole (ToLower (api.Role msg)) = true) messages ->
  exists st', rangeMessages' messages st = inl st'.
Proof.
  intros H. revert st.
  induction H as [|m rest Hm _ IH]; intros st; cbn [rangeMessages]; [eauto|].
  destruct (segmentMsg_valid st m Hm) as [st' ->]. apply IH.
Qed.

(** *** Image placeholders *)

Lemma Sprintf_img_placeholder N : Sprintf_img N = " " +:+ placeholder N.
Proof. reflexivity. Qed.

Lemma rangeImages_closed Images p N :
  0 <= N -> N + len Images <= max_int ->
  rangeImages Images p N =
  (prompt.mk (prompt.System p) (prompt.system p)
     (prompt.Prompt p +:+ placeholdersFrom N (length Images)) (prompt.prompt p)
     (prompt.Response p) (prompt.response p)
     (prompt.Images p ++ imagesFrom N Images) (prompt.tokens p),
   N + len Images).
Proof.
  revert p N. induction Images as [|data rest IH]; intros p N H0 Hmax.
  - destruct p. cbn. rewrite append_nil_r, app_nil_r. f_equal.
    unfold len. simpl. lia.
  - rewrite len_cons in Hmax. pose proof (len_nonneg rest).
    cbn [rangeImages]. rewrite int_add_exact by (unfold min_int, max_int in *; lia).
    rewrite IH by lia. destruct p. cbn.
    rewrite Sprintf_img_placeholder, !append_assoc, <- app_assoc. cbn.
    rewrite len_cons. f_equal. lia.
Qed.

Lemma userParts_snoc prompts p : userParts (prompts ++ [p]) = userParts prompts ++ userPart p.
Proof. unfold userParts. rewrite flat_map_app. simpl. by rewrite app_nil_r. Qed.

Lemma Forall_snoc {A} (P : A -> Prop) l x : Forall P l -> P x -> Forall P (l ++ [x]).
Proof. intros. apply Forall_app. split; [done|]. by apply Forall_singleton. Qed.

Lemma Forall_snoc_inv {A} (P : A -> Prop) l x : Forall P (l ++ [x]) -> Forall P l /\ P x.
Proof. intros [H1 H2]%Forall_app. split; [done|]. by apply Forall_inv in H2. Qed.

Lemma segmentMsg_user prompts p N msg prompts' p' N' :
  segmentMsg' (prompts, p, N) msg = inl (prompts', p', N') ->
  0 <= N -> N + attached ToLower [msg] <= max_int ->
  Forall bare (prompts ++ [p]) ->
  userParts (prompts' ++ [p']) = userParts (prompts ++ [p]) ++ userTurns ToLower N [msg] /\
  N' = N + attached ToLower [msg] /\
  Forall bare (prompts' ++ [p']).
Proof.
  unfold segmentMsg. cbn [attached userTurns]. intros H H0 Hmax HB.
  pose proof HB as [HB1 HB2]%Forall_snoc_inv.
  destruct (String.eqb (ToLower (api.Role msg)) "system") eqn:Esys.
  { apply String.eqb_eq in Esys. rewrite Esys.
    replace (String.eqb "system" "user") with false by reflexivity.
    rewrite app_nil_r, !Z.add_0_r.
    destruct (prompt.system p || prompt.prompt p || prompt.response p) eqn:Est;
      simpl in H; injection H as <- <- <-.
    - rewrite (userParts_snoc (prompts ++ [p])). cbn. rewrite app_nil_r.
      split_and!; [done..|]. apply Forall_snoc; [done|]. by intros _.
    - rewrite !userParts_snoc. destruct p. cbn in *.
      split_and!; [done..|]. by apply Forall_snoc. }
  destruct (String.eqb (ToLower (api.Role msg)) "user") eqn:Eusr.
  { rewrite Z.add_0_r in *.
    destruct (prompt.prompt p || prompt.response p) eqn:Est;
      rewrite rangeImages_closed in H by done;
      simpl in H; injection H as <- <- <-.
    - rewrite (userParts_snoc (prompts ++ [p])). cbn.
      split_and!; [done..|]. apply Forall_snoc; [done|]. by intros ?.
    - apply orb_false_iff in Est as [Ep Er].
      destruct (HB2 Ep) as [_ HI]. rewrite !userParts_snoc.
      unfold userPart. rewrite Ep, HI. cbn. rewrite app_nil_r.
      split_and!; [done..|]. apply Forall_snoc; [done|]. by intros ?. }
  destruct (String.eqb (ToLower (api.Role msg)) "assistant"); [|done].
  rewrite app_nil_r, !Z.add_0_r.
  destruct (prompt.response p) eqn:Er; simpl in H; injection H as <- <- <-.
  - rewrite (userParts_snoc (prompts ++ [p])). cbn. rewrite app_nil_r.
    split_and!; [done..|]. apply Forall_snoc; [done|]. by intros _.
  - rewrite !userParts_snoc. destruct p. cbn in *.
    split_and!; [done..|]. by apply Forall_snoc.
Qed.

Lemma attached_nonneg messages : 0 <= attached ToLower messages.
Proof.
  induction messages as [|msg rest IH]; simpl; [lia|].
  pose proof (len_nonneg (api.Images msg)).
  destruct (String.eqb _ _); lia.
Qed.

Lemma userTurns_cons N msg rest :
  userTurns ToLower N (msg :: rest) =
  userTurns ToLower N [msg] ++ userTurns ToLower (N + attached ToLower [msg]) rest.
Proof.
  cbn [userTurns attached]. rewrite Z.add_0_r.
  destruct (String.eqb _ _); [done|]. by rewrite Z.add_0_r.
Qed.

Lemma rangeMessages_user messages prompts p N prompts' p' N' :
  rangeMessages' messages (prompts, p, N) = inl (prompts', p', N') ->
  0 <= N -> N + attached ToLower messages <= max_int ->
  Forall bare (prompts ++ [p]) ->
  userParts (prompts' ++ [p']) = userParts (prompts ++ [p]) ++ userTurns ToLower N messages /\
  Forall bare (prompts' ++ [p']).
Proof.
  revert prompts p N.
  induction messages as [|msg rest IH]; intros prompts p N;
    cbn [rangeMessages].
  - intros [= <- <- <-] _ _ HB. by rewrite app_nil_r.
  - destruct (segmentMsg' (prompts, p, N) msg)
      as [[[prompts1 p1] N1]|err] eqn:HS; [|done].
    intros HR H0 Hmax HB.
    assert (attached ToLower (msg :: rest)
            = attached ToLower [msg] + attached ToLower rest) as Hsplit.
    { cbn [attached]. lia. }
    pose proof (attached_nonneg rest). pose proof (attached_nonneg [msg]).
    destruct (segmentMsg_user _ _ _ _ _ _ _ HS H0 ltac:(lia) HB) as (HU & -> & HB1).
    destruct (IH _ _ _ HR ltac:(lia) ltac:(lia) HB1) as (HU' & HB').
    split; [|done].
    by rewrite HU', HU, (userTurns_cons N msg rest), <- app_assoc.
Qed.

Lemma bare_firstPrompt : bare (firstPrompt loaded_Model_System).
Proof. by intros _. Qed.

Lemma segment_userParts messages prompts :
  segment' messages = inl prompts ->
  attached ToLower messages <= max_int ->
  userParts prompts = userTurns ToLower 0 messages /\
  Forall bare prompts.
Proof.
  intros (prompts0 & p & images & HR & ->)%segment_snoc Hmax.
  apply rangeMessages_user in HR as [HU HB];
    [done|lia|lia|apply Forall_singleton, bare_firstPrompt].
Qed.

(** C8, as the code has it.  When segmentation succeeds (and the images
    are fewer than the largest [int]), the prompts that hold a user text
    are, in order, those of the user messages: the text of each is the text
    of the message followed, for each of its images, by a space and the
    placeholder [[img-N]], and its images are the records with these same
    ordinals, in order; [N] starts at 0 and runs on through the whole
    conversation.  A prompt without a user text holds no image. *)
Theorem C8_placeholder_after_space messages prompts :
  segment' messages = inl prompts ->
  attached ToLower messages <= max_int ->
  userParts prompts = userTurns ToLower 0 messages /\
  Forall bare prompts.
Proof. apply segment_userParts. Qed.

(** *** The order of the images *)

Lemma imagesFrom_lower N datas :
  Forall (fun img => N <= llm.ID img) (imagesFrom N datas).
Proof.
  revert N. induction datas as [|data rest IH]; intros N; simpl; [done|].
  constructor; [simpl; lia|].
  eapply Forall_impl; [apply IH|]. simpl. intros img ?. lia.
Qed.

Lemma imagesFrom_sorted N datas :
  StronglySorted Z.lt (map llm.ID (imagesFrom N datas)).
Proof.
  revert N. induction datas as [|data rest IH]; intros N; simpl; [constructor|].
  constructor; [apply IH|].
  rewrite Forall_map. eapply Forall_impl; [apply imagesFrom_lower|].
  simpl. intros img ?. lia.
Qed.

Lemma userTurns_images N messages text images :
  In (text, images) (userTurns ToLower N messages) ->
  exists N' datas, images = imagesFrom N' datas.
Proof.
  revert N. induction messages as [|msg rest IH]; intros N; simpl; [done|].
  destruct (String.eqb _ _); [|apply IH].
  intros [[= _ <-]|H]; [eauto|]. by eapply IH.
Qed.

Lemma segment_orderedImages messages prompts :
  segment' messages = inl prompts ->
  attached ToLower messages <= max_int ->
  Forall orderedImages prompts.
Proof.
  intros HS Hmax.
  destruct (segment_userParts _ _ HS Hmax) as [HU HB].
  apply Forall_forall. intros p Hp. unfold orderedImages.
  destruct (prompt.prompt p) eqn:Ep.
  - assert (In (prompt.Prompt p, prompt.Images p) (userParts prompts)) as Hin.
    { unfold userParts. apply in_flat_map. exists p.
      split; [by apply list_elem_of_In|]. unfold userPart. rewrite Ep. by left. }
    rewrite HU in Hin. apply userTurns_images in Hin as (N' & datas & ->).
    apply imagesFrom_sorted.
  - rewrite Forall_forall in HB. destruct (HB p Hp Ep) as [_ ->]. constructor.
Qed.

Lemma truncStep_orderedImages tmpl window encode prompts :
  Forall orderedImages prompts ->
  match truncStep' tmpl window encode prompts with
  | ctlContinue prompts' | ctlBreak prompts' => Forall orderedImages prompts'
  | _ => True
  end.
Proof.
  intros HF. unfold truncStep.
  destruct (total prompts <=? window); [done|].
  destruct prompts as [|p0 rest]; [done|].
  apply Forall_cons in HF as [H0 HF].
  destruct (1 <? len (prompt.Images p0)).
  { constructor; [|done]. unfold orderedImages in *.
    destruct p0 as [? ? ? ? ? ? [|img imgs] ?]; cbn in *; [done|].
    rewrite drop_0. by apply StronglySorted_inv in H0 as [? _]. }
  destruct (1 <? len (p0 :: rest)); [|by constructor].
  destruct (String.eqb (prompt.System p0) ""); [done|].
  destruct rest as [|q rest]; [done|].
  destruct (String.eqb (prompt.System q) ""); [|done].
  simpl. destruct (countTokens' _ _ _ _ _) as [tokens [err|]]; [done|].
  apply Forall_cons in HF as [Hq HF]. by constructor.
Qed.

(** *** The letter case of roles *)

Lemma segmentMsg_sameButCase st m1 m2 :
  sameButCase ToLower m1 m2 ->
  validRole (ToLower (api.Role m1)) = true ->
  segmentMsg' st m1 = segmentMsg' st m2.
Proof.
  intros (HR & HC & HI) Hv. destruct st as [[prompts p] images].
  unfold segmentMsg. rewrite <- HR, <- HC, <- HI.
  unfold validRole in Hv.
  destruct (String.eqb (ToLower (api.Role m1)) "system"); [done|].
  destruct (String.eqb (ToLower (api.Role m1)) "user"); [done|].
  by destruct (String.eqb (ToLower (api.Role m1)) "assistant").
Qed.

Lemma rangeMessages_sameButCase ms1 ms2 st :
  Forall2 (sameButCase ToLower) ms1 ms2 ->
  Forall (fun msg => validRole (ToLower (api.Role msg)) = true) ms1 ->
  rangeMessages' ms1 st = rangeMessages' ms2 st.
Proof.
  intros H. revert st.
  induction H as [|m1 m2 ms1 ms2 Hm _ IH]; intros st Hv; [done|].
  apply Forall_cons in Hv as [Hv1 Hv]. cbn [rangeMessages].
  rewrite <- (segmentMsg_sameButCase st m1 m2 Hm Hv1).
  destruct (segmentMsg' st m1); [by apply IH|done].
Qed.

Lemma sameButCase_valid ms1 ms2 :
  Forall2 (sameButCase ToLower) ms1 ms2 ->
  Forall (fun msg => validRole (ToLower (api.Role msg)) = true) ms1 ->
  Forall (fun msg => validRole (ToLower (api.Role msg)) = true) ms2.
Proof.
  induction 1 as [|m1 m2 ms1 ms2 (HR & _) _ IH]; [done|].
  intros [Hv1 Hv]%Forall_cons. constructor; [by rewrite <- HR|by apply IH].
Qed.

Lemma ChatPrompt_invalid tmpl system pre msg post window encode :
  Forall (fun msg => validRole (ToLower (api.Role msg)) = true) pre ->
  validRole (ToLower (api.Role msg)) = false ->
  ChatPrompt' tmpl system (pre ++ msg :: post) window encode
  = Returns ""%string (Some (invalidRole (api.Role msg))).
Proof.
  intros Hpre Hmsg. unfold ChatPrompt, survivors, segment.
  by rewrite rangeMessages_invalid.
Qed.

Lemma valid_or_invalid messages :
  Forall (fun msg => validRole (ToLower (api.Role msg)) = true) messages \/
  Exists (fun msg => validRole (ToLower (api.Role msg)) = false) messages.
Proof.
  induction messages as [|m rest [IH|IH]].
  - by left.
  - destruct (validRole (ToLower (api.Role m))) eqn:Hm.
    + left. by constructor.
    + right. by constructor.
  - right. by apply Exists_cons_tl.
Qed.

Lemma segment_error messages :
  (exists err, segment' messages = inr err) <->
  Exists (fun msg => validRole (ToLower (api.Role msg)) = false) messages.
Proof.
  split.
  - intros [err H]. destruct (valid_or_invalid messages) as [HV|HE]; [|done].
    destruct (rangeMessages_valid messages
                ([], firstPrompt loaded_Model_System, 0) HV) as [[[ps p] n] HR].
    unfold segment in H. by rewrite HR in H.
  - intros (pre & msg & post & -> & Hpre & Hmsg)%first_invalid.
    exists (invalidRole (api.Role msg)). unfold segment.
    by rewrite rangeMessages_invalid.
Qed.

(** C10, as the code has it.  Take two message lists that differ at most
    in the letter case of their roles.  When every role is, in lower case,
    one of system, user and assistant, both give the same segmentation and
    the same result of ChatPrompt.  Otherwise both are refused with the
    invalid-role error at the same position, and each error quotes the role
    of the refused message as it is written.  Segmentation fails only
    then. *)
Theorem C10_roles_match_in_lower_case ms1 ms2 :
  Forall2 (sameButCase ToLower) ms1 ms2 ->
  (Forall (fun msg => validRole (ToLower (api.Role msg)) = true) ms1 ->
     segment' ms1 = segment' ms2 /\
     (exists prompts, segment' ms1 = inl prompts) /\
     forall tmpl system window encode,
       ChatPrompt' tmpl system ms1 window encode
       = ChatPrompt' tmpl system ms2 window encode) /\
  (Exists (fun msg => validRole (ToLower (api.Role msg)) = false) ms1 ->
     exists (i : nat) m1 m2,
       ms1 !! i = Some m1 /\ ms2 !! i = Some m2 /\
       sameButCase ToLower m1 m2 /\
       validRole (ToLower (api.Role m1)) = false /\
       forall tmpl system window encode,
         ChatPrompt' tmpl system ms1 window encode
           = Returns ""%string (Some (invalidRole (api.Role m1))) /\
         ChatPrompt' tmpl system ms2 window encode
           = Returns ""%string (Some (invalidRole (api.Role m2)))) /\
  ((exists err, segment' ms1 = inr err) <->
   Exists (fun msg => validRole (ToLower (api.Role msg)) = false) ms1).
Proof.
  intros H. split_and!.
  - intros Hv.
    assert (segment' ms1 = segment' ms2) as HS.
    { unfold segment. by rewrite (rangeMessages_sameButCase ms1 ms2). }
    split_and!; [done| |].
    + destruct (rangeMessages_valid ms1
                  ([], firstPrompt loaded_Model_System, 0) Hv) as [[[ps p] n] HR].
      unfold segment. rewrite HR. eauto.
    + intros tmpl system window encode. unfold ChatPrompt, survivors.
      by rewrite HS.
  - intros (pre & m1 & post & -> & Hpre & Hm1)%first_invalid.
    apply Forall2_app_inv_l in H as (pre2 & rest2 & Hpre2 & Hrest & ->).
    apply Forall2_cons_inv_l in Hrest as (m2 & post2 & Hm & _ & ->).
    exists (length pre), m1, m2. split_and!; [| |done..|].
    + by apply list_lookup_middle.
    + apply list_lookup_middle. by apply Forall2_length in Hpre2.
    + intros tmpl system window encode. split.
      * by apply ChatPrompt_invalid.
      * apply ChatPrompt_invalid.
        -- by eapply sameButCase_valid.
        -- destruct Hm as (<- & _). done.
  - apply segment_error.
Qed.

(** *** What the first prompt holds and what the loop sees *)

(** The parameter [system] has no part in the result. *)
Lemma ChatPrompt_system_unused tmpl system1 system2 messages window encode :
  ChatPrompt' tmpl system1 messages window encode
  = ChatPrompt' tmpl system2 messages window encode.
Proof. reflexivity. Qed.

Lemma segmentMsg_first L prompts p images msg prompts' p' images' :
  segmentMsg' (prompts, p, images) msg = inl (prompts', p', images') ->
  firstHolds L (prompts ++ [p]) -> firstHolds L (prompts' ++ [p']).
Proof.
  unfold segmentMsg. intros H HI.
  destruct prompts as [|q ps].
  - simpl in HI. destruct HI as [HL Hs]. rewrite Hs in H. simpl in H.
    destruct (String.eqb (ToLower (api.Role msg)) "system").
    { by injection H as <- <- <-. }
    destruct (String.eqb (ToLower (api.Role msg)) "user").
    { destruct (prompt.prompt p || prompt.response p);
        destruct (rangeImages _ _ _) as [p1 i1] eqn:HR;
        apply rangeImages_fields in HR as (HR1 & HR2 & _);
        simpl in H; injection H as <- <- <-; simpl; [done|].
      by rewrite HR1, HR2. }
    destruct (String.eqb (ToLower (api.Role msg)) "assistant"); [|done].
    by destruct (prompt.response p); simpl in H; injection H as <- <- <-.
  - simpl in HI.
    destruct (String.eqb (ToLower (api.Role msg)) "system").
    { by destruct (prompt.system p || prompt.prompt p || prompt.response p);
        simpl in H; injection H as <- <- <-. }
    destruct (String.eqb (ToLower (api.Role msg)) "user").
    { by destruct (prompt.prompt p || prompt.response p);
        destruct (rangeImages _ _ _) as [p1 i1];
        simpl in H; injection H as <- <- <-. }
    destruct (String.eqb (ToLower (api.Role msg)) "assistant"); [|done].
    by destruct (prompt.response p); simpl in H; injection H as <- <- <-.
Qed.

Lemma rangeMessages_first L messages prompts p images prompts' p' images' :
  rangeMessages' messages (prompts, p, images) = inl (prompts', p', images') ->
  firstHolds L (prompts ++ [p]) -> firstHolds L (prompts' ++ [p']).
Proof.
  revert prompts p images.
  induction messages as [|msg rest IH]; intros prompts p images;
    cbn [rangeMessages].
  - by intros [= <- <- <-].
  - destruct (segmentMsg' (prompts, p, images) msg)
      as [[[prompts1 p1] images1]|err] eqn:HS; [|done].
    intros HR HI. eapply IH; [exact HR|]. by eapply segmentMsg_first.
Qed.

(** The first prompt of a segmentation holds [loaded.Model.System]. *)
Lemma segment_first messages prompts :
  segment' messages = inl prompts -> firstHolds loaded_Model_System prompts.
Proof.
  intros (prompts0 & p & images & HR & ->)%segment_snoc.
  eapply rangeMessages_first; [exact HR|]. done.
Qed.

(** With a window that is not negative the loop drops nothing: the
    [tokens] fields it adds up are the zeros that segmentation left. *)
Lemma survivors_untruncated tmpl messages window encode prompts :
  0 <= window ->
  segment' messages = inl prompts ->
  survivors' tmpl messages window encode =
  match (costRange' tmpl encode prompts prompts).2 with
  | Some err => Returns [] (Some err)
  | None => Returns prompts None
  end.
Proof.
  intros Hw HS. unfold survivors. rewrite HS.
  pose proof (costRange_prompts tmpl encode prompts prompts) as HC.
  destruct (costRange' tmpl encode prompts prompts) as [prompts1 [err|]]; [done|].
  simpl in *. subst prompts1.
  rewrite truncLoop_step. unfold truncStep.
  rewrite (total_zero prompts) by (by eapply segment_tokens).
  by assert ((0 <=? window) = true) as -> by (by apply Z.leb_le).
Qed.

(** ** Further properties of ChatPrompt *)

(** *** Errors of the token count *)

Lemma costRange_first_error tmpl encode pre p post prompts err :
  Forall (fun q => (countTokens' tmpl (prompt.System q) (prompt.Prompt q)
                                 (prompt.Response q) encode).2 = None) pre ->
  (countTokens' tmpl (prompt.System p) (prompt.Prompt p)
                (prompt.Response p) encode).2 = Some err ->
  (costRange' tmpl encode (pre ++ p :: post) prompts).2 = Some err.
Proof.
  intros Hpre Hp. induction Hpre as [|q pre Hq _ IH]; cbn [costRange app].
  - destruct (countTokens' tmpl _ _ _ encode) as [tokens [e|]]; simpl in *;
      congruence.
  - destruct (countTokens' tmpl (prompt.System q) _ _ encode) as [tokens [e|]];
      simpl in *; [congruence|exact IH].
Qed.

Lemma ChatPrompt_count_error
    tmpl system messages window encode pre p post err :
  segment' messages = inl (pre ++ p :: post) ->
  Forall (fun q => (countTokens' tmpl (prompt.System q) (prompt.Prompt q)
                                 (prompt.Response q) encode).2 = None) pre ->
  (countTokens' tmpl (prompt.System p) (prompt.Prompt p)
                (prompt.Response p) encode).2 = Some err ->
  ChatPrompt' tmpl system messages window encode = Returns ""%string (Some err).
Proof.
  intros HS Hpre Hp. unfold ChatPrompt, survivors. rewrite HS.
  pose proof (costRange_first_error tmpl encode pre p post
                (pre ++ p :: post) err Hpre Hp) as HC.
  destruct (costRange' tmpl encode _ _) as [ps [e|]]; simpl in HC; [|done].
  by injection HC as ->.
Qed.

(** X4. The token count of every prompt is taken before the loop, in
    order, and the first one that fails ends ChatPrompt with its error and
    the empty string, whatever the window is. *)
Theorem X4_first_failing_count_aborts
    tmpl system messages window encode pre p post err :
  segment' messages = inl (pre ++ p :: post) ->
  Forall (fun q => (countTokens' tmpl (prompt.System q) (prompt.Prompt q)
                                 (prompt.Response q) encode).2 = None) pre ->
  (countTokens' tmpl (prompt.System p) (prompt.Prompt p)
                (prompt.Response p) encode).2 = Some err ->
  ChatPrompt' tmpl system messages window encode = Returns ""%string (Some err).
Proof. apply ChatPrompt_count_error. Qed.

Lemma countTokens_Parse_error tmpl nodes err system prompt response encode :
  Parse tmpl = (nodes, Some err) ->
  countTokens' tmpl system prompt response encode = (0, Some err).
Proof. intros HP. unfold countTokens, Prompt. by rewrite HP. Qed.

(** X5. With a template that does not compile, ChatPrompt on messages
    whose roles are all accepted returns the empty string and the error of
    the compilation, whatever the messages, the window and the tokenizer
    are. *)
Theorem X5_template_error_aborts
    tmpl nodes err system messages window encode :
  Parse tmpl = (nodes, Some err) ->
  Forall (fun msg => validRole (ToLower (api.Role msg)) = true) messages ->
  ChatPrompt' tmpl system messages window encode = Returns ""%string (Some err).
Proof.
  intros HP Hv.
  destruct (rangeMessages_valid messages
              ([], firstPrompt loaded_Model_System, 0) Hv) as [[[ps p] n] HR].
  destruct (segment' messages) as [prompts|e] eqn:HS.
  2:{ unfold segment in HS. by rewrite HR in HS. }
  pose proof (segment_nonempty _ _ HS) as Hne.
  destruct prompts as [|p0 rest]; [done|].
  apply (ChatPrompt_count_error tmpl system messages window encode
           [] p0 rest err HS); [constructor|].
  by rewrite (countTokens_Parse_error tmpl nodes err).
Qed.

(** *** What ChatPrompt returns *)


(** X7. With a window that is not negative nothing is dropped: when the
    token counts succeed, ChatPrompt returns the renderings of all the
    prompts of the segmentation, in order. *)
Theorem X7_nothing_dropped tmpl system messages window encode prompts :
  0 <= window ->
  segment' messages = inl prompts ->
  ChatPrompt' tmpl system messages window encode =
  match (costRange' tmpl encode prompts prompts).2 with
  | Some err => Returns ""%string (Some err)
  | None =>
      let '(s, err) := renderRange' tmpl prompts "" in Returns s err
  end.
Proof.
  intros Hw HS. unfold ChatPrompt.
  rewrite (survivors_untruncated tmpl messages window encode prompts Hw HS).
  by destruct ((costRange' tmpl encode prompts prompts).2).
Qed.

(** *** How the loop ends *)

Lemma truncStep_break tmpl window encode prompts prompts' :
  truncStep' tmpl window encode prompts = ctlBreak prompts' ->
  total prompts' <= window \/
  (exists p, prompts' = [p] /\ len (prompt.Images p) <= 1) \/
  (exists q rest, prompts' = q :: rest /\ prompt.System q <> ""%string).
Proof.
  unfold truncStep.
  destruct (total prompts <=? window) eqn:Ht.
  { intros [= <-]. left. by apply Z.leb_le. }
  destruct prompts as [|p0 rest]; [done|].
  destruct (1 <? len (prompt.Images p0)) eqn:Himg; [done|].
  apply Z.ltb_ge in Himg.
  destruct (1 <? len (p0 :: rest)) eqn:Hlen.
  - destruct (String.eqb (prompt.System p0) "") eqn:Hsys; [done|].
    apply String.eqb_neq in Hsys.
    destruct rest as [|q rest]; [done|].
    destruct (String.eqb (prompt.System q) "") eqn:Hq.
    + simpl. destruct (countTokens' _ _ _ _ _) as [tokens [err|]]; [done|].
      intros [= <-]. right. right. eexists _, _. split; [done|]. by destruct q.
    + apply String.eqb_neq in Hq. intros [= <-]. right. right. eauto.
  - intros [= <-]. right. left. apply Z.ltb_ge in Hlen.
    rewrite len_cons in Hlen. pose proof (len_nonneg rest).
    destruct rest as [|q rest]; [eauto|].
    rewrite len_cons in Hlen. pose proof (len_nonneg rest). lia.
Qed.

Lemma truncLoop_exit tmpl window encode prompts prompts' :
  truncLoop' tmpl window encode prompts = Done prompts' ->
  total prompts' <= window \/
  (exists p, prompts' = [p] /\ len (prompt.Images p) <= 1) \/
  (exists q rest, prompts' = q :: rest /\ prompt.System q <> ""%string).
Proof.
  remember (weight prompts) as n eqn:Hn. revert prompts Hn.
  induction n as [n IH] using lt_wf_ind. intros prompts ->.
  rewrite truncLoop_step.
  destruct (truncStep' tmpl window encode prompts) as [ps|ps|s err|] eqn:Hstep;
    [|intros [= <-]; by eapply truncStep_break|done|done].
  eapply IH; [|reflexivity]. by eapply truncStep_weight.
Qed.

(** X9. The loop ends within the window unless it had to give up: the
    prompts it leaves either add up to at most the window, or are a single
    prompt with at most one image, or start with a prompt whose [System] is
    not empty (the loop stops for good once a prompt with an instruction
    has been removed). *)
Theorem X9_over_the_window_only_when_giving_up
    tmpl window encode prompts prompts' :
  truncLoop' tmpl window encode prompts = Done prompts' ->
  window < total prompts' ->
  (exists p, prompts' = [p] /\ len (prompt.Images p) <= 1) \/
  (exists q rest, prompts' = q :: rest /\ prompt.System q <> ""%string).
Proof.
  intros HL Hover. apply truncLoop_exit in HL as [HL|HL]; [lia|done].
Qed.

(** *** The prompts of a segmentation *)

Lemma segmentMsg_flushed prompts p images msg prompts' p' images' :
  segmentMsg' (prompts, p, images) msg = inl (prompts', p', images') ->
  Forall (fun q => started q = true) prompts ->
  Forall (fun q => started q = true) prompts' /\
  (length prompts' <= S (length prompts))%nat.
Proof.
  unfold segmentMsg. intros H HF.
  assert (forall b, b = true -> started p = true ->
            Forall (fun q => started q = true) (prompts ++ [p]) /\
            (length (prompts ++ [p]) <= S (length prompts))%nat) as Hflush.
  { intros b _ Hp. split; [by apply Forall_snoc|].
    rewrite length_app. simpl. lia. }
  destruct (String.eqb (ToLower (api.Role msg)) "system").
  { destruct (prompt.system p || prompt.prompt p || prompt.response p) eqn:Est;
      simpl in H; injection H as <- <- <-.
    - by apply (Hflush true).
    - split; [done|lia]. }
  destruct (String.eqb (ToLower (api.Role msg)) "user").
  { destruct (prompt.prompt p || prompt.response p) eqn:Est;
      destruct (rangeImages _ _ _) as [p1 i1];
      simpl in H; injection H as <- <- <-.
    - apply (Hflush true); [done|]. unfold started.
      apply orb_true_iff in Est as [->| ->];
        by destruct (prompt.system p), (prompt.prompt p).
    - split; [done|lia]. }
  destruct (String.eqb (ToLower (api.Role msg)) "assistant"); [|done].
  destruct (prompt.response p) eqn:Er; simpl in H; injection H as <- <- <-.
  - apply (Hflush true); [done|]. by apply started_response.
  - split; [done|lia].
Qed.

Lemma rangeMessages_flushed messages prompts p images prompts' p' images' :
  rangeMessages' messages (prompts, p, images) = inl (prompts', p', images') ->
  Forall (fun q => started q = true) prompts ->
  Forall (fun q => started q = true) prompts' /\
  (length prompts' <= length prompts + length messages)%nat.
Proof.
  revert prompts p images.
  induction messages as [|msg rest IH]; intros prompts p images;
    cbn [rangeMessages].
  - intros [= <- <- <-] HF. split; [done|lia].
  - destruct (segmentMsg' (prompts, p, images) msg)
      as [[[prompts1 p1] images1]|err] eqn:HS; [|done].
    intros HR HF.
    destruct (segmentMsg_flushed _ _ _ _ _ _ _ HS HF) as [HF1 Hl1].
    destruct (IH _ _ _ HR HF1) as [HF2 Hl2].
    split; [done|]. simpl. lia.
Qed.

(** X11. Every prompt of a segmentation holds an instruction, a user text
    or a response, and there are at least one prompt and at most one more
    than there are messages. *)
Theorem X11_prompts_started_and_counted messages prompts :
  segment' messages = inl prompts ->
  Forall (fun p => started p = true) prompts /\
  (1 <= length prompts <= S (length messages))%nat.
Proof.
  intros (prompts0 & p & images & HR & ->)%segment_snoc.
  pose proof (rangeMessages_started _ _ _ _ _ _ _ HR eq_refl) as Hp.
  destruct (rangeMessages_flushed _ _ _ _ _ _ _ HR ltac:(constructor))
    as [HF Hl].
  split; [by apply Forall_snoc|].
  rewrite length_app. simpl in *. lia.
Qed.

(** X12. On an empty conversation ChatPrompt counts and renders one
    prompt, which holds [loaded.Model.System] and nothing else, whatever
    the window is. *)
Theorem X12_empty_conversation tmpl system window encode :
  segment' [] = inl [firstPrompt loaded_Model_System] /\
  ChatPrompt' tmpl system [] window encode =
  match countTokens' tmpl loaded_Model_System "" "" encode with
  | (_, Some err) => Returns ""%string (Some err)
  | (_, None) =>
      match Prompt' tmpl loaded_Model_System "" "" true with
      | (_, Some err) => Returns ""%string (Some err)
      | (rendered, None) => Returns rendered None
      end
  end.
Proof.
  split; [done|].
  unfold ChatPrompt, survivors. cbn [segment rangeMessages firstPrompt].
  cbn. destruct (countTokens' tmpl loaded_Model_System "" "" encode)
    as [tokens [err|]]; [done|].
  rewrite truncLoop_step. unfold truncStep. cbn.
  change (int_add 0 0) with 0.
  change (1 <? len (@nil llm.ImageData)) with false.
  change (1 <? len [firstPrompt loaded_Model_System]) with false.
  destruct (0 <=? window); cbn;
    by destruct (Prompt' tmpl loaded_Model_System "" "" true) as [r [err|]].
Qed.

(** *** The loop cuts at the front *)

Lemma sameTurn_refl p : sameTurn p p.
Proof. by repeat split. Qed.

Lemma drop_cons_lookup {A} (l : list A) n x r :
  drop n l = x :: r -> l !! n = Some x /\ r = drop (S n) l.
Proof.
  intros H. assert (l !! n = Some x) as Hx.
  { pose proof (lookup_drop l n 0) as HL. rewrite H in HL. simpl in HL.
    by rewrite Nat.add_0_r in HL. }
  split; [done|]. rewrite (drop_S l x n Hx) in H. by injection H.
Qed.

Lemma truncStep_frontCut tmpl window encode prompts0 prompts :
  frontCut prompts0 prompts ->
  match truncStep' tmpl window encode prompts with
  | ctlContinue prompts' | ctlBreak prompts' => frontCut prompts0 prompts'
  | _ => True
  end.
Proof.
  intros HF. unfold truncStep.
  destruct (total prompts <=? window); [done|].
  destruct HF as (k & p & p' & Hk & -> & HT).
  destruct (1 <? len (prompt.Images p')).
  { exists k, p, (prompt.set_tokens (int_sub (prompt.tokens p') 768)
                    (prompt.set_Images (drop 1 (prompt.Images p')) p')).
    split_and!; [done..|].
    destruct HT as (? & ? & ? & ? & ? & HI). repeat split; try done.
    simpl. etrans; [apply suffix_drop|done]. }
  destruct (drop (S k) prompts0) as [|q rest] eqn:HD.
  { change (1 <? len [p']) with false. cbv iota. exists k, p, p'.
    by rewrite HD. }
  destruct (1 <? len (p' :: q :: rest)).
  2:{ exists k, p, p'. by rewrite HD. }
  apply drop_cons_lookup in HD as [Hq ->].
  destruct (String.eqb (prompt.System p') "").
  { exists (S k), q, q. split_and!; [done..|apply sameTurn_refl]. }
  destruct (String.eqb (prompt.System q) "").
  - simpl. destruct (countTokens' _ _ _ _ _) as [tokens [err|]]; [done|].
    eexists (S k), q, _. split_and!; [done..|]. by repeat split.
  - exists (S k), q, q. split_and!; [done..|apply sameTurn_refl].
Qed.

Lemma truncLoop_frontCut tmpl window encode prompts0 prompts prompts' :
  frontCut prompts0 prompts ->
  truncLoop' tmpl window encode prompts = Done prompts' ->
  frontCut prompts0 prompts'.
Proof.
  remember (weight prompts) as n eqn:Hn. revert prompts Hn.
  induction n as [n IH] using lt_wf_ind. intros prompts -> HF.
  rewrite truncLoop_step.
  pose proof (truncStep_frontCut tmpl window encode prompts0 prompts HF) as Hs.
  destruct (truncStep' tmpl window encode prompts) as [ps|ps|s err|] eqn:Hstep;
    [|by intros [= <-]|done|done].
  eapply IH; [|reflexivity|exact Hs]. by eapply truncStep_weight.
Qed.

(** X8. The loop cuts at the front and nowhere else.  The prompts it
    leaves are the prompts from some position on: those behind the first
    are untouched, and the first has kept its user text, its response and
    its flags, and of its images a final part. *)
Theorem X8_loop_cuts_at_the_front tmpl window encode prompts prompts' :
  prompts <> [] ->
  truncLoop' tmpl window encode prompts = Done prompts' ->
  frontCut prompts prompts'.
Proof.
  intros Hne. apply truncLoop_frontCut.
  destruct prompts as [|p rest]; [done|].
  exists 0%nat, p, p. split_and!; [done|done|apply sameTurn_refl].
Qed.

(** *** The images of the prompts that are left *)

Lemma truncLoop_orderedImages tmpl window encode prompts prompts' :
  Forall orderedImages prompts ->
  truncLoop' tmpl window encode prompts = Done prompts' ->
  Forall orderedImages prompts'.
Proof.
  remember (weight prompts) as n eqn:Hn. revert prompts Hn.
  induction n as [n IH] using lt_wf_ind. intros prompts -> HF.
  rewrite truncLoop_step.
  pose proof (truncStep_orderedImages tmpl window encode prompts HF) as Hs.
  destruct (truncStep' tmpl window encode prompts) as [ps|ps|s err|] eqn:Hstep;
    [|by intros [= <-]|done|done].
  eapply IH; [|reflexivity|exact Hs]. by eapply truncStep_weight.
Qed.

(** X14. In every prompt that reaches the final rendering the IDs of the
    images increase along the slice (for fewer images than the largest
    [int]). *)
Theorem X14_surviving_images_ordered tmpl messages window encode prompts :
  attached ToLower messages <= max_int ->
  survivors' tmpl messages window encode = Returns prompts None ->
  Forall orderedImages prompts.
Proof.
  intros Hmax. unfold survivors.
  destruct (segment' messages) as [ps|err] eqn:HS; [|done].
  pose proof (costRange_prompts tmpl encode ps ps) as HC.
  destruct (costRange' tmpl encode ps ps) as [ps1 [err|]]; [done|].
  simpl in HC. subst ps1.
  destruct (truncLoop' tmpl window encode ps) as [ps'|err|] eqn:HL; [|done..].
  intros [= <-]. eapply truncLoop_orderedImages; [|exact HL].
  by eapply segment_orderedImages.
Qed.

(** *** Segmentation loses nothing *)

Lemma slots_snoc prompts p :
  flat_map slots (prompts ++ [p]) = flat_map slots prompts ++ slots p.
Proof. rewrite flat_map_app. simpl. by rewrite app_nil_r. Qed.

Lemma segmentMsg_slots prompts p N msg prompts' p' N' :
  segmentMsg' (prompts, p, N) msg = inl (prompts', p', N') ->
  0 <= N -> N + attached ToLower [msg] <= max_int ->
  flat_map slots (prompts' ++ [p']) =
  flat_map slots (prompts ++ [p]) ++ slotsOf ToLower N [msg].
Proof.
  unfold segmentMsg. cbn [attached slotsOf]. intros H H0 Hmax.
  destruct (String.eqb (ToLower (api.Role msg)) "system") eqn:Esys.
  { apply String.eqb_eq in Esys. rewrite Esys.
    replace (String.eqb "system" "user") with false by reflexivity.
    destruct (prompt.system p || prompt.prompt p || prompt.response p) eqn:Est;
      simpl in H; injection H as <- <- <-.
    - by rewrite (slots_snoc (prompts ++ [p])).
    - apply orb_false_iff in Est as [[Es Ep]%orb_false_iff Er].
      rewrite !slots_snoc, <- app_assoc. f_equal.
      destruct p. cbn in *. by subst. }
  destruct (String.eqb (ToLower (api.Role msg)) "user") eqn:Eusr.
  { rewrite Z.add_0_r in Hmax.
    destruct (prompt.prompt p || prompt.response p) eqn:Est;
      rewrite rangeImages_closed in H by done;
      simpl in H; injection H as <- <- <-.
    - by rewrite (slots_snoc (prompts ++ [p])).
    - apply orb_false_iff in Est as [Ep Er].
      rewrite !slots_snoc, <- app_assoc. f_equal.
      destruct p. cbn in *. subst. by destruct system. }
  destruct (String.eqb (ToLower (api.Role msg)) "assistant") eqn:Easst; [|done].
  apply String.eqb_eq in Easst. rewrite Easst.
  destruct (prompt.response p) eqn:Er; simpl in H; injection H as <- <- <-.
  - by rewrite (slots_snoc (prompts ++ [p])).
  - rewrite !slots_snoc, <- app_assoc. f_equal.
    destruct p. cbn in *. subst. by destruct system, prompt.
Qed.

Lemma slotsOf_cons N msg rest :
  slotsOf ToLower N (msg :: rest) =
  slotsOf ToLower N [msg] ++ slotsOf ToLower (N + attached ToLower [msg]) rest.
Proof.
  cbn [slotsOf attached]. rewrite Z.add_0_r.
  destruct (String.eqb _ _); [done|]. by rewrite Z.add_0_r.
Qed.

Lemma rangeMessages_slots messages prompts p N prompts' p' N' :
  rangeMessages' messages (prompts, p, N) = inl (prompts', p', N') ->
  0 <= N -> N + attached ToLower messages <= max_int ->
  Forall bare (prompts ++ [p]) ->
  flat_map slots (prompts' ++ [p']) =
  flat_map slots (prompts ++ [p]) ++ slotsOf ToLower N messages.
Proof.
  revert prompts p N.
  induction messages as [|msg rest IH]; intros prompts p N;
    cbn [rangeMessages].
  - intros [= <- <- <-] _ _ _. by rewrite app_nil_r.
  - destruct (segmentMsg' (prompts, p, N) msg)
      as [[[prompts1 p1] N1]|err] eqn:HS; [|done].
    intros HR H0 Hmax HB.
    assert (attached ToLower (msg :: rest)
            = attached ToLower [msg] + attached ToLower rest) as Hsplit.
    { cbn [attached]. lia. }
    pose proof (attached_nonneg rest). pose proof (attached_nonneg [msg]).
    pose proof (segmentMsg_slots _ _ _ _ _ _ _ HS H0 ltac:(lia)) as HU.
    destruct (segmentMsg_user _ _ _ _ _ _ _ HS H0 ltac:(lia) HB) as (_ & -> & HB1).
    rewrite (IH _ _ _ HR ltac:(lia) ltac:(lia) HB1), HU.
    by rewrite (slotsOf_cons N msg rest), <- app_assoc.
Qed.

(** X10. Segmentation loses nothing and keeps the order.  Read slot by
    slot, the prompts are the instruction [loaded.Model.System] followed by
    the messages, each with its role in lower case and its text, the text
    of a user message followed by the placeholders of its images (for
    fewer images than the largest [int]). *)
Theorem X10_segmentation_keeps_the_messages messages prompts :
  segment' messages = inl prompts ->
  attached ToLower messages <= max_int ->
  flat_map slots prompts =
  ("system"%string, loaded_Model_System) :: slotsOf ToLower 0 messages.
Proof.
  intros (prompts0 & p & images & HR & ->)%segment_snoc Hmax.
  by rewrite (rangeMessages_slots _ _ _ _ _ _ _ HR ltac:(lia) ltac:(lia)
                (proj2 (Forall_singleton _ _) bare_firstPrompt)).
Qed.

(** *** The bytes of the images *)

Lemma rangeImages_erasePayload Images p N :
  rangeImages (map (fun _ => []) Images) (erasePayload p) N =
  ((erasePayload (rangeImages Images p N).1), (rangeImages Images p N).2).
Proof.
  revert p N. induction Images as [|data rest IH]; intros p N; [done|].
  cbn [rangeImages map]. rewrite <- IH. f_equal.
  destruct p. unfold erasePayload. cbn. by rewrite map_app.
Qed.

Lemma segmentMsg_erasePayload prompts p N msg :
  segmentMsg' (map erasePayload prompts, erasePayload p, N) (withoutPayload msg) =
  match segmentMsg' (prompts, p, N) msg with
  | inl (prompts', p', N') => inl (map erasePayload prompts', erasePayload p', N')
  | inr err => inr err
  end.
Proof.
  unfold segmentMsg. cbn [withoutPayload api.Role api.Content api.Images].
  assert (map erasePayload (prompts ++ [p])
          = map erasePayload prompts ++ [erasePayload p]) as Hsnoc
    by (by rewrite map_app).
  replace (prompt.system (erasePayload p)) with (prompt.system p) by done.
  replace (prompt.prompt (erasePayload p)) with (prompt.prompt p) by done.
  replace (prompt.response (erasePayload p)) with (prompt.response p) by done.
  destruct (String.eqb (ToLower (api.Role msg)) "system").
  { by destruct (prompt.system p || prompt.prompt p || prompt.response p);
      cbn; rewrite ?Hsnoc. }
  destruct (String.eqb (ToLower (api.Role msg)) "user").
  { destruct (prompt.prompt p || prompt.response p); cbn -[rangeImages].
    - change (prompt.set_prompt true (prompt.set_Prompt (api.Content msg) prompt.zero))
        with (erasePayload
                (prompt.set_prompt true
                   (prompt.set_Prompt (api.Content msg) prompt.zero))).
      rewrite rangeImages_erasePayload.
      destruct (rangeImages _ _ _). cbn. by rewrite Hsnoc.
    - change (prompt.set_prompt true
                (prompt.set_Prompt (api.Content msg) (erasePayload p)))
        with (erasePayload
                (prompt.set_prompt true (prompt.set_Prompt (api.Content msg) p))).
      rewrite rangeImages_erasePayload.
      by destruct (rangeImages _ _ _). }
  destruct (String.eqb (ToLower (api.Role msg)) "assistant"); [|done].
  by destruct (prompt.response p); cbn; rewrite ?Hsnoc.
Qed.

Lemma rangeMessages_erasePayload messages prompts p N :
  rangeMessages' (map withoutPayload messages)
                 (map erasePayload prompts, erasePayload p, N) =
  match rangeMessages' messages (prompts, p, N) with
  | inl (prompts', p', N') => inl (map erasePayload prompts', erasePayload p', N')
  | inr err => inr err
  end.
Proof.
  revert prompts p N.
  induction messages as [|msg rest IH]; intros prompts p N; [done|].
  cbn [rangeMessages map]. rewrite segmentMsg_erasePayload.
  destruct (segmentMsg' (prompts, p, N) msg) as [[[prompts1 p1] N1]|err];
    [apply IH|done].
Qed.

Lemma segment_erasePayload messages :
  segment' (map withoutPayload messages) =
  match segment' messages with
  | inl prompts => inl (map erasePayload prompts)
  | inr err => inr err
  end.
Proof.
  unfold segment.
  change ([], firstPrompt loaded_Model_System, 0)
    with (map erasePayload [], erasePayload (firstPrompt loaded_Model_System), 0)
    at 1.
  rewrite rangeMessages_erasePayload.
  destruct (rangeMessages' messages _) as [[[prompts p] N]|err]; [|done].
  replace (prompt.system (erasePayload p)) with (prompt.system p) by done.
  replace (prompt.prompt (erasePayload p)) with (prompt.prompt p) by done.
  replace (prompt.response (erasePayload p)) with (prompt.response p) by done.
  destruct (prompt.system p || prompt.prompt p || prompt.response p); [|done].
  by rewrite map_app.
Qed.

Lemma costRange_erasePayload tmpl encode range prompts prompts' :
  (costRange' tmpl encode (map erasePayload range) prompts).2
  = (costRange' tmpl encode range prompts').2.
Proof.
  induction range as [|p rest IH]; [done|]. cbn [costRange map].
  replace (prompt.System (erasePayload p)) with (prompt.System p) by done.
  replace (prompt.Prompt (erasePayload p)) with (prompt.Prompt p) by done.
  replace (prompt.Response (erasePayload p)) with (prompt.Response p) by done.
  by destruct (countTokens' tmpl _ _ _ encode) as [tokens [err|]].
Qed.

Lemma total_erasePayload prompts : total (map erasePayload prompts) = total prompts.
Proof.
  unfold total. generalize 0.
  induction prompts as [|p rest IH]; intros acc; [done|]. simpl. apply IH.
Qed.

Lemma len_map {A B} (f : A -> B) l : len (map f l) = len l.
Proof. unfold len. by rewrite length_map. Qed.

Lemma truncStep_erasePayload tmpl window encode prompts :
  truncStep' tmpl window encode (map erasePayload prompts) =
  match truncStep' tmpl window encode prompts with
  | ctlContinue prompts' => ctlContinue (map erasePayload prompts')
  | ctlBreak prompts' => ctlBreak (map erasePayload prompts')
  | other => other
  end.
Proof.
  unfold truncStep. rewrite total_erasePayload.
  destruct (total prompts <=? window); [done|].
  destruct prompts as [|p0 rest]; [done|]. cbn [map].
  replace (len (prompt.Images (erasePayload p0))) with (len (prompt.Images p0))
    by (by destruct p0; cbn; rewrite len_map).
  destruct (1 <? len (prompt.Images p0)).
  { f_equal. f_equal. destruct p0. unfold erasePayload. cbn.
    by rewrite !skipn_map. }
  replace (len (erasePayload p0 :: map erasePayload rest)) with (len (p0 :: rest))
    by (by rewrite !len_cons, len_map).
  destruct (1 <? len (p0 :: rest)); [|done].
  replace (prompt.System (erasePayload p0)) with (prompt.System p0) by done.
  destruct (String.eqb (prompt.System p0) ""); [done|].
  destruct rest as [|q rest]; [done|]. cbn [map].
  replace (prompt.System (erasePayload q)) with (prompt.System q) by done.
  destruct (String.eqb (prompt.System q) ""); [|done].
  cbn. destruct (countTokens' tmpl _ _ _ encode) as [tokens [err|]]; [done|].
  f_equal. f_equal. destruct q. unfold erasePayload. cbn. by rewrite len_map.
Qed.

Lemma truncLoop_erasePayload tmpl window encode prompts :
  truncLoop' tmpl window encode (map erasePayload prompts) =
  match truncLoop' tmpl window encode prompts with
  | Done prompts' => Done (map erasePayload prompts')
  | other => other
  end.
Proof.
  remember (weight prompts) as n eqn:Hn. revert prompts Hn.
  induction n as [n IH] using lt_wf_ind. intros prompts ->.
  rewrite (truncLoop_step tmpl window encode prompts).
  rewrite truncLoop_step, truncStep_erasePayload.
  destruct (truncStep' tmpl window encode prompts) as [ps|ps|s err|] eqn:Hstep;
    try done.
  eapply IH; [|reflexivity]. by eapply truncStep_weight.
Qed.

Lemma renderRange_erasePayload tmpl prompts sb :
  renderRange' tmpl (map erasePayload prompts) sb = renderRange' tmpl prompts sb.
Proof.
  revert sb. induction prompts as [|p rest IH]; intros sb; [done|].
  cbn [renderRange map].
  replace (prompt.System (erasePayload p)) with (prompt.System p) by done.
  replace (prompt.Prompt (erasePayload p)) with (prompt.Prompt p) by done.
  replace (prompt.Response (erasePayload p)) with (prompt.Response p) by done.
  by destruct (Prompt' tmpl _ _ _ true) as [r [err|]].
Qed.

(** X13. The bytes of the images have no part in the result: ChatPrompt
    returns the same on the messages with every image replaced by an empty
    one.  Only the number of images of each message counts. *)
Theorem X13_image_bytes_unused tmpl system messages window encode :
  ChatPrompt' tmpl system (map withoutPayload messages) window encode
  = ChatPrompt' tmpl system messages window encode.
Proof.
  unfold ChatPrompt, survivors. rewrite segment_erasePayload.
  destruct (segment' messages) as [prompts|err]; [|done].
  pose proof (costRange_prompts tmpl encode prompts prompts) as HC1.
  pose proof (costRange_prompts tmpl encode (map erasePayload prompts)
                (map erasePayload prompts)) as HC2.
  pose proof (costRange_erasePayload tmpl encode prompts
                (map erasePayload prompts) prompts) as HE.
  destruct (costRange' tmpl encode prompts prompts) as [ps1 e1].
  destruct (costRange' tmpl encode (map erasePayload prompts) _) as [ps2 e2].
  simpl in *. subst. destruct e1 as [err|]; [done|].
  rewrite truncLoop_erasePayload.
  destruct (truncLoop' tmpl window encode prompts) as [ps|err|]; [|done..].
  by rewrite renderRange_erasePayload.
Qed.

(** *** Placeholders name their image *)

(** X16. Two different ordinals never give the same placeholder text. *)
Theorem X16_placeholders_distinct (a b : Z) :
  a <> b -> Sprintf_img a <> Sprintf_img b.
Proof.
  intros Hab H. apply Hab. unfold Sprintf_img in H.
  apply (inj (String.append " [img-")) in H.
  by apply append_inj_r, itoa_inj in H.
Qed.

End Packer.

(** C7. When some message has a role that, in lower case, is none of
    system, user and assistant, ChatPrompt returns the empty string and
    the invalid-role error of the first such message, whatever the
    template, the template engine, the tokenizer and the window are:
    neither the estimator nor the renderer has a part in the result. *)
Theorem C7_invalid_role_aborts (ToLower : string -> string)
    (messages : list api.Message) :
  Exists (fun msg => validRole (ToLower (api.Role msg)) = false) messages ->
  exists pre msg post,
    messages = pre ++ msg :: post /\
    Forall (fun msg => validRole (ToLower (api.Role msg)) = true) pre /\
    validRole (ToLower (api.Role msg)) = false /\
    forall Parse (state : Type) (newState : state) walk loaded_Model_System
           tmpl system window encode,
      ChatPrompt Parse state newState walk ToLower loaded_Model_System
                 tmpl system messages window encode
      = Returns ""%string (Some (invalidRole (api.Role msg))).
Proof.
  intros (pre & msg & post & -> & Hpre & Hmsg)%first_invalid.
  exists pre, msg, post. split_and!; [done..|].
  intros. by apply ChatPrompt_invalid.
Qed.

(** ** The program on concrete inputs *)

Lemma Toy_walk_Response (vars : gmap string string) (s : unit) (v : string) :
  vars !! "Response"%string = Some v ->
  Toy.walk vars s (parse.ofAction responseActionNode) = (v, s, None).
Proof. intros H. unfold Toy.walk. simpl. by rewrite H. Qed.

(** C1. Two turns whose renderings take 43 and 32 tokens, and a window of
    30: the pass over the prompts computes both counts and stores neither,
    every [tokens] field is still zero when the loop adds them up, and both
    turns reach the final rendering.  With the counts in the [tokens]
    fields the loop drops the first turn. *)
Theorem C1_token_costs_not_stored :
  exists p1 p2,
    Toy.segment "" Cases.twoTurns = inl [p1; p2] /\
    Toy.countTokens Toy.tmpl (prompt.System p1) (prompt.Prompt p1)
                    (prompt.Response p1) Toy.encode = (43, None) /\
    Toy.countTokens Toy.tmpl (prompt.System p2) (prompt.Prompt p2)
                    (prompt.Response p2) Toy.encode = (32, None) /\
    costRange Toy.Parse unit tt Toy.walk Toy.tmpl Toy.encode [p1; p2] [p1; p2]
      = ([p1; p2], None) /\
    prompt.tokens p1 = 0 /\ prompt.tokens p2 = 0 /\
    total [p1; p2] = 0 /\
    Toy.survivors "" Toy.tmpl Cases.twoTurns 30 Toy.encode
      = Returns [p1; p2] None /\
    truncLoop Toy.Parse unit tt Toy.walk Toy.tmpl 30 Toy.encode
              [prompt.set_tokens 43 p1; prompt.set_tokens 32 p2]
      = Done [prompt.set_tokens 32 p2].
Proof.
  eexists _, _. split; [vm_compute; reflexivity|].
  split_and!; vm_compute; reflexivity.
Qed.

(** C4. The caller passes "caller instruction" as [system]; the first
    prompt holds the value of [loaded.Model.System] instead, and the
    result follows that package variable. *)
Theorem C4_first_prompt_from_loaded :
  Toy.segment "model default" [Toy.user "hi" []]
    = inl [prompt.mk "model default" true "hi" true "" false [] 0] /\
  Toy.ChatPrompt "model default" Toy.tmpl "caller instruction"
                 [Toy.user "hi" []] 100 Toy.encode
    = Returns "[INST] model default hi [/INST] "%string None /\
  Toy.ChatPrompt "another default" Toy.tmpl "caller instruction"
                 [Toy.user "hi" []] 100 Toy.encode
    = Returns "[INST] another default hi [/INST] "%string None.
Proof. split_and!; vm_compute; reflexivity. Qed.

(** The oldest of three images goes first. *)
Lemma C2_witness :
  truncStep Toy.Parse unit tt Toy.walk Toy.tmpl 100 Toy.encode Cases.threeImages
  = ctlContinue
      [prompt.mk "" true "look [img-0] [img-1] [img-2]" true "" false
                 [Cases.image 1; Cases.image 2] 1572;
       prompt.mk "" false "and now?" true "" false [] 25].
Proof.
  destruct (C2_oldest_image_dropped_first Toy.Parse unit tt Toy.walk
              Toy.tmpl 100 Toy.encode
              (prompt.mk "" true "look [img-0] [img-1] [img-2]" true "" false
                         [Cases.image 0; Cases.image 1; Cases.image 2] 2340)
              [prompt.mk "" false "and now?" true "" false [] 25])
    as (img & imgs & HI & Hstep & _).
  - vm_compute. reflexivity.
  - vm_compute. reflexivity.
  - simpl in HI. injection HI as <- <-. exact Hstep.
Defined.

(** The instruction of the removed prompt is carried and the loop stops,
    still over the window; without an instruction it goes on. *)
Lemma C3_witness :
  truncLoop Toy.Parse unit tt Toy.walk Toy.tmpl 0 Toy.encode Cases.carry
    = Done [prompt.mk "sys1" false "u2" true "" false [] 23] /\
  truncLoop Toy.Parse unit tt Toy.walk Toy.tmpl 0 Toy.encode Cases.noCarry
    = truncLoop Toy.Parse unit tt Toy.walk Toy.tmpl 0 Toy.encode
        (drop 1 Cases.noCarry).
Proof.
  split.
  - destruct (C3_system_carried_then_stop Toy.Parse unit tt Toy.walk
                Toy.tmpl 0 Toy.encode
                (prompt.mk "sys1" true "u1" true "" false [] 24)
                (prompt.mk "" false "u2" true "" false [] 20) [])
      as [_ H]; [vm_compute; reflexivity|vm_compute; discriminate|].
    destruct H as [_ H]; [discriminate|].
    unfold Cases.carry. rewrite (H eq_refl). reflexivity.
  - destruct (C3_system_carried_then_stop Toy.Parse unit tt Toy.walk
                Toy.tmpl 0 Toy.encode
                (prompt.mk "" true "u1" true "" false [] 20)
                (prompt.mk "" false "u2" true "" false [] 20)
                [prompt.mk "" false "u3" true "" false [] 20])
      as [H _]; [vm_compute; reflexivity|vm_compute; discriminate|].
    destruct (H eq_refl) as [_ HL]. exact HL.
Defined.

(** A template without the marker, and one that is cut after it. *)
Lemma C5_witness :
  Toy.Prompt "a{{.Prompt}}b" "S" "P" "R" true = ("aPbR"%string, None) /\
  Toy.Prompt "a{{.Prompt}}b" "S" "P" "R" false = ("aPbR"%string, None) /\
  Toy.Prompt "a{{.Prompt}}b{{ .Response }} tail" "S" "P" "R" true
    = ("aPbR"%string, None).
Proof.
  split_and!.
  - destruct (C5_marker_appended_or_cut Toy.Parse unit tt Toy.walk
                Toy_walk_Response "a{{.Prompt}}b" _ "S" "P" "R" eq_refl)
      as [H _].
    destruct (H ltac:(repeat constructor) true) as [_ HP].
    unfold Toy.Prompt. rewrite HP. reflexivity.
  - destruct (C5_marker_appended_or_cut Toy.Parse unit tt Toy.walk
                Toy_walk_Response "a{{.Prompt}}b" _ "S" "P" "R" eq_refl)
      as [H _].
    destruct (H ltac:(repeat constructor) false) as [_ HP].
    unfold Toy.Prompt. rewrite HP. reflexivity.
  - destruct (C5_marker_appended_or_cut Toy.Parse unit tt Toy.walk
                Toy_walk_Response "a{{.Prompt}}b{{ .Response }} tail" _
                "S" "P" "R" eq_refl)
      as [_ H].
    destruct (H [parse.ofText {| parse.Text := "a" |};
                 Toy.fieldAction "Prompt";
                 parse.ofText {| parse.Text := "b" |}]
                (Toy.fieldAction "Response")
                [parse.ofText {| parse.Text := " tail" |}]
                eq_refl ltac:(repeat constructor) eq_refl) as [_ HP].
    unfold Toy.Prompt. rewrite HP. reflexivity.
Defined.

(** A window of zero. *)
Lemma C6_witness :
  exists prompts,
    Toy.survivors "" Toy.tmpl Cases.twoTurns 0 Toy.encode
      = Returns prompts None /\
    prompts <> [].
Proof.
  destruct (C6_result_never_empty Toy.Parse unit tt Toy.walk Toy.ToLower ""
              Toy.tmpl "" Cases.twoTurns 0 Toy.encode
              "[INST]  first question [/INST] first answer[INST]  second question [/INST] "
              ltac:(vm_compute; reflexivity))
    as [(prompts & rendered & HS & Hne & _) _].
  exists prompts. split; [exact HS|exact Hne].
Defined.

(** A moderator between two user messages. *)
Lemma C7_witness :
  exists pre msg post,
    Cases.withModerator = pre ++ msg :: post /\
    Forall (fun msg => validRole (Toy.ToLower (api.Role msg)) = true) pre /\
    validRole (Toy.ToLower (api.Role msg)) = false /\
    forall Parse (state : Type) (newState : state) walk loaded_Model_System
           tmpl system window encode,
      ChatPrompt Parse state newState walk Toy.ToLower loaded_Model_System
                 tmpl system Cases.withModerator window encode
      = Returns ""%string (Some (invalidRole (api.Role msg))).
Proof.
  apply (C7_invalid_role_aborts Toy.ToLower Cases.withModerator).
  apply Exists_cons_tl, Exists_cons_hd. reflexivity.
Defined.

(** Two user messages with one image each: [[img-0]] and [[img-1]]. *)
Lemma C8_witness :
  exists prompts,
    Toy.segment "" Cases.twoImages = inl prompts /\
    map fst (userParts prompts) = ["one [img-0]"; "two [img-1]"]%string /\
    map snd (userParts prompts) = [[Cases.image 0]; [Cases.image 1]].
Proof.
  eexists. split; [vm_compute; reflexivity|].
  destruct (C8_placeholder_after_space Toy.ToLower ""
              Cases.twoImages _ ltac:(vm_compute; reflexivity)
              ltac:(vm_compute; discriminate)) as [HU _].
  rewrite HU. split; reflexivity.
Defined.

(** The claim of C8 as it is stated fails: the text of the message is not
    followed immediately by the placeholder. *)
Lemma C8_counterexample :
  exists p,
    Toy.segment "" [Toy.user "hi" [[]]] = inl [p] /\
    prompt.Prompt p = "hi [img-0]"%string /\
    prompt.Prompt p <> "hi" +:+ placeholder 0.
Proof.
  eexists. split; [vm_compute; reflexivity|].
  split; [reflexivity|]. vm_compute. discriminate.
Qed.

(** SYSTEM, User and Assistant are system, user and assistant. *)
Lemma C10_witness :
  Toy.segment "" Cases.mixedCase = Toy.segment "" Cases.lowerCase /\
  Toy.ChatPrompt "" Toy.tmpl "" Cases.mixedCase 100 Toy.encode
  = Toy.ChatPrompt "" Toy.tmpl "" Cases.lowerCase 100 Toy.encode.
Proof.
  destruct (C10_roles_match_in_lower_case Toy.Parse unit tt Toy.walk
              Toy.ToLower "" Cases.mixedCase Cases.lowerCase)
    as [H _].
  - repeat constructor.
  - destruct H as (HS & _ & HC); [repeat constructor|].
    split; [exact HS|apply HC].
Defined.

(** The claim of C10 as it is stated fails: two lists that differ in the
    letter case of a role only, and two different results. *)
Lemma C10_counterexample :
  sameButCase Toy.ToLower Cases.moderator Cases.MODERATOR /\
  Toy.ChatPrompt "" Toy.tmpl "" [Cases.moderator] 100 Toy.encode
  <> Toy.ChatPrompt "" Toy.tmpl "" [Cases.MODERATOR] 100 Toy.encode.
Proof.
  split; [by repeat split|]. vm_compute. discriminate.
Qed.

(** ** The further properties on concrete inputs *)

(** The text behind the marker is rendered when [cut] is false. *)
Lemma X1_witness :
  Toy.Prompt Cases.tailTmpl "S" "P" "R" false = ("aPbR tail"%string, None).
Proof.
  destruct (X1_marker_kept_whole Toy.Parse unit tt Toy.walk Cases.tailTmpl
              Cases.tailPre (Toy.fieldAction "Response") Cases.tailPost
              "S" "P" "R" eq_refl ltac:(repeat constructor) eq_refl)
    as [_ HP].
  unfold Toy.Prompt. rewrite HP. reflexivity.
Defined.

(** "aPbR" is a prefix of "aPbR tail". *)
Lemma X3_witness :
  exists head tail,
    Toy.Prompt Cases.tailTmpl "S" "P" "R" true = (head, None) /\
    "aPbR tail"%string = head +:+ tail.
Proof.
  apply (X3_cut_text_is_prefix Toy.Parse unit tt Toy.walk Cases.tailTmpl
           "S" "P" "R" "aPbR tail").
  vm_compute. reflexivity.
Defined.

(** A tokenizer that fails. *)
Lemma X4_witness :
  Toy.ChatPrompt "" Toy.tmpl "" Cases.twoTurns 100 Toy.encodeFails
  = Returns ""%string (Some "encode failed"%string).
Proof.
  apply (X4_first_failing_count_aborts Toy.Parse unit tt Toy.walk Toy.ToLower ""
           Toy.tmpl "" Cases.twoTurns 100 Toy.encodeFails
           [] Cases.turn1 [Cases.turn2] "encode failed").
  - vm_compute. reflexivity.
  - constructor.
  - vm_compute. reflexivity.
Defined.

(** An action that is not closed. *)
Lemma X5_witness :
  Toy.ChatPrompt "" "{{ .Prompt" "" Cases.twoTurns 100 Toy.encode
  = Returns ""%string (Some "unclosed action"%string).
Proof.
  apply (X5_template_error_aborts Toy.Parse unit tt Toy.walk Toy.ToLower ""
           "{{ .Prompt" [] "unclosed action" "" Cases.twoTurns 100 Toy.encode).
  - vm_compute. reflexivity.
  - repeat constructor.
Defined.

(** Two turns of 43 and 32 tokens in a window of 30. *)
Lemma X7_witness :
  Toy.ChatPrompt "" Toy.tmpl "" Cases.twoTurns 30 Toy.encode
  = Returns
      "[INST]  first question [/INST] first answer[INST]  second question [/INST] "%string
      None.
Proof.
  unfold Toy.ChatPrompt.
  rewrite (X7_nothing_dropped Toy.Parse unit tt Toy.walk Toy.ToLower ""
             Toy.tmpl "" Cases.twoTurns 30 Toy.encode
             [Cases.turn1; Cases.turn2]).
  - vm_compute. reflexivity.
  - lia.
  - vm_compute. reflexivity.
Defined.

(** Two images, then the prompt that held them, are cut. *)
Lemma X8_witness :
  exists prompts',
    truncLoop Toy.Parse unit tt Toy.walk Toy.tmpl 100 Toy.encode Cases.threeImages
      = Done prompts' /\
    frontCut Cases.threeImages prompts'.
Proof.
  eexists. split; [vm_compute; reflexivity|].
  apply (X8_loop_cuts_at_the_front Toy.Parse unit tt Toy.walk
           Toy.tmpl 100 Toy.encode).
  - discriminate.
  - vm_compute. reflexivity.
Defined.

(** 23 tokens in a window of 0, after an instruction was carried. *)
Lemma X9_witness :
  (exists p, [prompt.mk "sys1" false "u2" true "" false [] 23] = [p] /\
             len (prompt.Images p) <= 1) \/
  (exists q rest, [prompt.mk "sys1" false "u2" true "" false [] 23] = q :: rest /\
                  prompt.System q <> ""%string).
Proof.
  apply (X9_over_the_window_only_when_giving_up Toy.Parse unit tt Toy.walk
           Toy.tmpl 0 Toy.encode Cases.carry).
  - vm_compute. reflexivity.
  - vm_compute. reflexivity.
Defined.

(** Three messages, two images. *)
Lemma X10_witness :
  exists prompts,
    Toy.segment "be kind" Cases.twoImages = inl prompts /\
    flat_map slots prompts =
    [("system", "be kind"); ("user", "one [img-0]");
     ("assistant", "seen"); ("user", "two [img-1]")]%string.
Proof.
  eexists. split; [vm_compute; reflexivity|].
  rewrite (X10_segmentation_keeps_the_messages Toy.ToLower "be kind"
             Cases.twoImages).
  - reflexivity.
  - vm_compute. reflexivity.
  - vm_compute. discriminate.
Defined.

Lemma X11_witness :
  Forall (fun p => started p = true) [Cases.turn1; Cases.turn2] /\
  (1 <= length [Cases.turn1; Cases.turn2] <= S (length Cases.twoTurns))%nat.
Proof.
  apply (X11_prompts_started_and_counted Toy.ToLower "" Cases.twoTurns).
  vm_compute. reflexivity.
Defined.

Lemma X14_witness :
  exists prompts,
    Toy.survivors "" Toy.tmpl Cases.twoImages 100 Toy.encode
      = Returns prompts None /\
    Forall orderedImages prompts.
Proof.
  eexists. split; [vm_compute; reflexivity|].
  apply (X14_surviving_images_ordered Toy.Parse unit tt Toy.walk Toy.ToLower ""
           Toy.tmpl Cases.twoImages 100 Toy.encode).
  - vm_compute. discriminate.
  - vm_compute. reflexivity.
Defined.

(** The second of two templates is cut; the first is as it was. *)
Lemma X15_witness :
  formatTemplateForResponse_heap
    [Cases.tailPre; Cases.tailPre ++ Toy.fieldAction "Response" :: Cases.tailPost]
    1 true
  = [Cases.tailPre; Cases.tailPre ++ [Toy.fieldAction "Response"]].
Proof.
  rewrite X15_only_its_template_is_written by (simpl; lia).
  reflexivity.
Defined.

Lemma X16_witness : Sprintf_img 0 <> Sprintf_img 1.
Proof. apply X16_placeholders_distinct. lia. Defined.
